(** * Duplicate image remover: clustering, representative selection,
      deletion plan and deletion run

    A shallow embedding of [src/duplicate_image_remover.py]
    (class [DuplicateImageRemover]) and the properties its specification
    states about it.

    Conventions of the embedding:
    - an image path (ImageRef) is a [string];
    - a Python [set] of paths is a [gset string]; the order in which
      Python iterates over a set is not fixed by the language, so every
      [for x in some_set] and every [list(some_set)] goes through a
      [SetIter], an arbitrary enumeration of the set's elements;
    - a Python [dict] is an association list in insertion order (the order
      [dict.items()] yields);
    - Python integers are [Z];
    - the file system is an explicit [World] threaded through the
      effectful methods, and an exception is a [Raise] result;
    - what the operating system, the clock and the [imagededup] hashers
      do is taken from an environment [Env];
    - the [while] loop of the traversal runs on fuel, with a bound under
      which it always runs to its end
      ([group_duplicates_traversals_finish]);
    - progress output ([print], [tqdm]) is left out; the lines that report
      a failed deletion are kept. *)

From Stdlib Require Import ZArith Lia Ascii.
From Stdlib Require String.
From stdpp Require Import base option list sets fin_sets gmap strings sorting.

Set Warnings "-clear-no-such-hyp".

Local Open Scope Z_scope.
Local Open Scope list_scope.

(* ===================================================================== *)
(** * Iteration order of Python sets                                      *)
(* ===================================================================== *)

(** [iter_set X] is the sequence a [for] loop over the set [X] visits:
    every element once, in an order the language leaves open. *)
Class SetIter := {
  iter_set : gset string → list string;
  iter_set_perm : ∀ X, iter_set X ≡ₚ elements X
}.

(** One concrete order, used to run the model on examples. *)
Definition elements_iter : SetIter :=
  {| iter_set := elements; iter_set_perm := λ X, reflexivity (elements X) |}.

(** The same order backwards: two runs need not agree on the order of a
    set. *)
Definition reversed_iter : SetIter :=
  {| iter_set := λ X, reverse (elements X);
     iter_set_perm := λ X, reverse_Permutation (elements X) |}.

(* ===================================================================== *)
(** * group_duplicates                                                    *)
(* ===================================================================== *)

(** [Dict[str, List[str]]], in insertion order. *)
Abbreviation DuplicateMap := (list (string * list string)).

(** [graph = defaultdict(set)]: a missing key reads as the empty set. *)
Abbreviation Graph := (gmap string (gset string)).

Definition graph_get (graph : Graph) (k : string) : gset string :=
  default ∅ (graph !! k).

(** [graph[a].add(b)] *)
Definition graph_add (a b : string) (graph : Graph) : Graph :=
  <[a := {[b]} ∪ graph_get graph a]> graph.

(** Body of [for dup_image in duplicate_list], on the pair
    [(graph, all_images)]. *)
Definition add_duplicate (main_image : string)
    (st : Graph * gset string) (dup_image : string) : Graph * gset string :=
  let '(graph, all_images) := st in
  (graph_add dup_image main_image (graph_add main_image dup_image graph),
   {[dup_image]} ∪ all_images).

(** Body of [for main_image, duplicate_list in duplicates.items()]. *)
Definition add_entry (st : Graph * gset string)
    (entry : string * list string) : Graph * gset string :=
  let '(main_image, duplicate_list) := entry in
  match duplicate_list with
  | [] => st
  | _ :: _ =>
      let '(graph, all_images) := st in
      foldl (add_duplicate main_image)
            (graph, {[main_image]} ∪ all_images) duplicate_list
  end.

Definition build_graph (duplicates : DuplicateMap) : Graph * gset string :=
  foldl add_entry (∅, ∅) duplicates.

(** State of the inner [while stack:] loop. The head of [stack] is the top
    of the Python list ([stack.pop()] takes it, [stack.append] conses). *)
Record DfsState := {
  stack : list string;
  visited : gset string;
  group : gset string
}.

(** [for neighbor in graph[current]: if neighbor not in visited:
    stack.append(neighbor)] *)
Definition push_neighbors (vis : gset string)
    (stk : list string) (neighbors : list string) : list string :=
  foldl (λ stk neighbor,
           if decide (neighbor ∈ vis) then stk else neighbor :: stk)
        stk neighbors.

(** One iteration of the [while] body; [None] when the loop condition
    [stack] is false. *)
Definition dfs_step `{SetIter} (graph : Graph) (s : DfsState) : option DfsState :=
  match stack s with
  | [] => None
  | current :: rest =>
      if decide (current ∈ visited s) then
        Some {| stack := rest; visited := visited s; group := group s |}
      else
        let vis := {[current]} ∪ visited s in
        Some {| stack := push_neighbors vis rest
                           (iter_set (graph_get graph current));
                visited := vis;
                group := {[current]} ∪ group s |}
  end.

(** The [while] loop, run for at most [fuel] iterations. *)
Fixpoint dfs_loop `{SetIter} (fuel : nat) (graph : Graph) (s : DfsState) : DfsState :=
  match fuel with
  | O => s
  | S fuel' =>
      match dfs_step graph s with
      | None => s
      | Some s' => dfs_loop fuel' graph s'
      end
  end.

(** A number of iterations within which the loop started on a
    one-element stack always ends (see [dfs_loop_finishes]): every
    iteration pops one entry, and entries are only pushed when a node is
    visited for the first time, one per neighbour at most. *)
Definition node_cost (graph : Graph) (v : string) : nat :=
  S (size (graph_get graph v)).

Definition cost_sum (graph : Graph) (X : gset string) : nat :=
  sum_list_with (node_cost graph) (elements X).

Definition dfs_fuel (graph : Graph) (all_images : gset string) : nat :=
  S (cost_sum graph all_images).

(** Body of [for image in all_images], on [(visited, groups)]. *)
Definition visit_image `{SetIter} (graph : Graph) (all_images : gset string)
    (st : gset string * list (gset string)) (image : string)
    : gset string * list (gset string) :=
  let '(vis, groups) := st in
  if decide (image ∈ vis) then st
  else
    let s := dfs_loop (dfs_fuel graph all_images) graph
               {| stack := [image]; visited := vis; group := ∅ |} in
    (visited s,
     if decide (1 < size (group s))%nat then groups ++ [group s] else groups).

Definition find_groups `{SetIter} (graph : Graph) (all_images : gset string)
    : gset string * list (gset string) :=
  foldl (visit_image graph all_images) (∅, []) (iter_set all_images).

Definition group_duplicates `{SetIter} (duplicates : DuplicateMap)
    : list (gset string) :=
  let '(graph, all_images) := build_graph duplicates in
  (find_groups graph all_images).2.

(* ===================================================================== *)
(** * Exceptions, the file system and the environment                     *)
(* ===================================================================== *)

(** The exceptions the methods meet. All are subclasses of [Exception];
    [FileNotFoundError], [FileExistsError] and [SameFileError] are also
    subclasses of [OSError]. *)
Inductive exn :=
  | FileNotFoundError (path : string)
  | FileExistsError (path : string)
  | SameFileError (path : string)
  | OSError (path : string)
  | IndexError
  | ValueError (msg : string)
  | HasherError (msg : string).

Inductive result (A : Type) :=
  | Return (a : A)
  | Raise (e : exn).
Arguments Return {A} a.
Arguments Raise {A} e.

(** A line the run reports to the terminal when a file could not be
    removed ([print] or, under tqdm, [pbar.write]). Progress output is not
    modelled. *)
Inductive Event :=
  | DeleteFailed (via_pbar : bool) (name : string) (e : exn).

(** The file system and the terminal. Paths are normalised,
    [/]-separated strings without NUL; a regular file is a path with its
    content. *)
Record World := {
  files : gmap string string;
  dirs : gset string;
  stdout : list Event
}.

(** Operations the operating system refuses for reasons outside the
    model (permissions, I/O errors). *)
Record Faults := {
  stat_fault : string → bool;
  copy_fault : string → string → bool;
  remove_fault : string → bool;
  mkdir_fault : string → bool;
  write_fault : string → bool
}.

(** The methods of [imagededup]'s hashers used by the class. *)
Record Hasher := {
  Encodings : Type;
  encode_images : World → string → result Encodings;
  hasher_find_duplicates : Encodings → option Z → result DuplicateMap
}.

Inductive Method := PHash | DHash | AHash | WHash | CNN.

(** Everything the class takes from outside. *)
Record Env := {
  faults : Faults;
  hasher_of : Method → Hasher;
  TQDM_AVAILABLE : bool;
  (** [datetime.now().strftime("%Y%m%d_%H%M%S")] and
      [datetime.now().isoformat()] *)
  now_stamp : string;
  now_iso : string
}.

(** Effectful methods: a state monad over [World] with exceptions. The
    world at the point of a [Raise] is kept (nothing is rolled back). *)
Definition M (A : Type) : Type := World → result A * World.

Definition ret {A} (a : A) : M A := λ w, (Return a, w).
Definition raise {A} (e : exn) : M A := λ w, (Raise e, w).
Definition bind {A B} (m : M A) (k : A → M B) : M B :=
  λ w, match m w with
       | (Return a, w') => k a w'
       | (Raise e, w') => (Raise e, w')
       end.
(** [try: m  except Exception as e: h e] *)
Definition try_except {A} (m : M A) (h : exn → M A) : M A :=
  λ w, match m w with
       | (Return a, w') => (Return a, w')
       | (Raise e, w') => h e w'
       end.

Notation "'let*' x ':=' m 'in' k" := (bind m (λ x, k))
  (at level 10, x name, m at level 100, k at level 200, only parsing).

Fixpoint foldM {A B} (f : B → A → M B) (b : B) (l : list A) : M B :=
  match l with
  | [] => ret b
  | a :: l' => let* b' := f b a in foldM f b' l'
  end.

(** ** Paths *)

Definition slash : Ascii.ascii := "/"%char.
Definition dot : Ascii.ascii := "."%char.

(** Index of the last occurrence of [c] ([str.rfind]). *)
Fixpoint rfind (c : Ascii.ascii) (s : string) : option nat :=
  match s with
  | EmptyString => None
  | String d s' =>
      match rfind c s' with
      | Some i => Some (S i)
      | None => if Ascii.eqb c d then Some O else None
      end
  end.

(** [os.path.basename]: what follows the last [/]. *)
Definition basename (p : string) : string :=
  match rfind slash p with
  | Some i => String.substring (S i) (String.length p - S i) p
  | None => p
  end.

Definition starts_with (c : Ascii.ascii) (s : string) : bool :=
  match s with String d _ => Ascii.eqb c d | EmptyString => false end.

Fixpoint ends_with (c : Ascii.ascii) (s : string) : bool :=
  match s with
  | EmptyString => false
  | String d EmptyString => Ascii.eqb c d
  | String _ s' => ends_with c s'
  end.

(** [os.path.join(a, b)] *)
Definition path_join (a b : string) : string :=
  if starts_with slash b then b
  else if (String.eqb a "" || ends_with slash a)%bool then a +:+ b
  else a +:+ "/" +:+ b.

(** [Path.suffix] of the last path segment. *)
Definition path_suffix (p : string) : string :=
  let name := basename p in
  match rfind dot name with
  | Some i =>
      if ((0 <? i)%nat && (i <? String.length name - 1)%nat)%bool
      then String.substring i (String.length name - i) name
      else ""
  | None => ""
  end.

Definition lower_ascii (c : Ascii.ascii) : ascii :=
  let n := Ascii.nat_of_ascii c in
  if ((65 <=? n)%nat && (n <=? 90)%nat)%bool then Ascii.ascii_of_nat (n + 32) else c.

(** [str.lower] on the ASCII letters; the recognised extensions are ASCII,
    and no other character lowers to one of their letters. *)
Fixpoint lower (s : string) : string :=
  match s with
  | EmptyString => EmptyString
  | String c s' => String (lower_ascii c) (lower s')
  end.

Definition SUPPORTED_EXTENSIONS : list string :=
  [".jpg"; ".jpeg"; ".png"; ".bmp"; ".tiff"; ".tif"; ".webp"].

(** Truth value of an optional string argument ([if backup_dir:]): [None]
    and the empty string are false. *)
Definition truthy (o : option string) : option string :=
  match o with
  | Some s => if String.eqb s "" then None else Some s
  | None => None
  end.

(** ** File-system primitives *)

Definition set_files (f : gmap string string → gmap string string) (w : World) : World :=
  {| files := f (files w); dirs := dirs w; stdout := stdout w |}.

Definition print (ev : Event) : M unit :=
  λ w, (Return tt, {| files := files w; dirs := dirs w; stdout := stdout w ++ [ev] |}).

(** [Path(p).exists()] *)
Definition path_exists (w : World) (p : string) : bool :=
  bool_decide (p ∈ dom (files w) ∨ p ∈ dirs w).

(** [os.path.getsize]; [None] stands for the [OSError] it raises. No file
    has the empty path. *)
Definition getsize (env : Env) (w : World) (p : string) : option Z :=
  if String.eqb p "" then None
  else match files w !! p with
       | Some content =>
           if stat_fault (faults env) p then None
           else Some (Z.of_nat (String.length content))
       | None => None
       end.

(** [os.makedirs(p, exist_ok=True)] *)
Definition makedirs (env : Env) (p : string) : M unit :=
  λ w, if bool_decide (p ∈ dom (files w)) then (Raise (FileExistsError p), w)
       else if mkdir_fault (faults env) p then (Raise (OSError p), w)
       else (Return tt,
             {| files := files w; dirs := {[p]} ∪ dirs w; stdout := stdout w |}).

(** [shutil.copy2(src, dst)]: into [dst] when it is a directory, a
    [SameFileError] when source and destination are one file. *)
Definition copy2 (env : Env) (src dst : string) : M unit :=
  λ w, let dst := if bool_decide (dst ∈ dirs w)
                  then path_join dst (basename src) else dst in
       match files w !! src with
       | None => (Raise (FileNotFoundError src), w)
       | Some content =>
           if String.eqb src dst then (Raise (SameFileError src), w)
           else if copy_fault (faults env) src dst then (Raise (OSError src), w)
           else (Return tt, set_files (insert dst content) w)
       end.

(** [os.remove(p)] *)
Definition os_remove (env : Env) (p : string) : M unit :=
  λ w, match files w !! p with
       | None => (Raise (FileNotFoundError p), w)
       | Some _ =>
           if remove_fault (faults env) p then (Raise (OSError p), w)
           else (Return tt, set_files (delete p) w)
       end.

(** [with open(path, 'w') as f: f.write(content)] *)
Definition write_file (env : Env) (path content : string) : M unit :=
  λ w, if (write_fault (faults env) path || bool_decide (path ∈ dirs w))%bool
       then (Raise (OSError path), w)
       else (Return tt, set_files (insert path content) w).

(** [root_path.rglob('*')]: every path below [root]. *)
Definition rglob (w : World) (root : string) : list string :=
  filter (λ p, String.prefix (root +:+ "/") p = true)
         (elements (dom (files w) ∪ dirs w)).

Definition is_file (w : World) (p : string) : bool :=
  bool_decide (p ∈ dom (files w)).

(* ===================================================================== *)
(** * The class                                                           *)
(* ===================================================================== *)

Record DuplicateImageRemover := {
  threshold : Z;
  method_name : string;
  hasher : Method
}.

(** [__init__] *)
Definition init (method : string) (threshold : Z) : result DuplicateImageRemover :=
  let mk h := Return {| threshold := threshold; method_name := method; hasher := h |} in
  if String.eqb method "phash" then mk PHash
  else if String.eqb method "dhash" then mk DHash
  else if String.eqb method "ahash" then mk AHash
  else if String.eqb method "whash" then mk WHash
  else if String.eqb method "cnn" then mk CNN
  else Raise (ValueError method).

(** [file_path.is_file() and file_path.suffix.lower() in
    SUPPORTED_EXTENSIONS] *)
Definition is_image (w : World) (file_path : string) : bool :=
  (is_file w file_path &&
   bool_decide (lower (path_suffix file_path) ∈ SUPPORTED_EXTENSIONS))%bool.

(** The two branches (with and without tqdm) collect the same files. *)
Definition find_all_images (root_dir : string) : M (list string) :=
  λ w, if negb (path_exists w root_dir)
       then (Raise (FileNotFoundError root_dir), w)
       else
         let all_files := rglob w root_dir in
         let image_files := filter (λ p, is_image w p = true) all_files in
         (Return (merge_sort String.le image_files), w).

(** [hasattr(self.hasher, 'find_duplicates')] holds of every hasher of
    the library, and [int(self.threshold)] is the threshold itself. *)
Definition find_duplicates (env : Env) (self : DuplicateImageRemover)
    (image_dir : string) : M DuplicateMap :=
  λ w, let h := hasher_of env (hasher self) in
       match encode_images h w image_dir with
       | Raise e => (Raise e, w)
       | Return encodings =>
           if negb (String.eqb (method_name self) "cnn") then
             let threshold_int := threshold self in
             if ((threshold_int <? 0) || (64 <? threshold_int))%bool
             then (Raise (ValueError "threshold"), w)
             else (hasher_find_duplicates h encodings (Some threshold_int), w)
           else (hasher_find_duplicates h encodings None, w)
       end.

(** The [for image_path in group] loop on [(best_image, best_size)]. *)
Definition select_step (env : Env) (w : World)
    (st : option string * Z) (image_path : string) : option string * Z :=
  let '(best_image, best_size) := st in
  match getsize env w image_path with
  | Some file_size =>
      if best_size <? file_size then (Some image_path, file_size)
      else (best_image, best_size)
  | None => (best_image, best_size)
  end.

(** [return best_image or list(group)[0]] *)
Definition select_representative `{SetIter} (env : Env) (group : gset string)
    : M string :=
  λ w, let '(best_image, _) :=
         foldl (select_step env w) (None, 0) (iter_set group) in
       match truthy best_image with
       | Some image => (Return image, w)
       | None =>
           match iter_set group with
           | first :: _ => (Return first, w)
           | [] => (Raise IndexError, w)
           end
       end.

(** One entry of [group_info]. *)
Record GroupData := {
  group_id : Z;
  total_count : Z;
  representative : string;
  duplicates : list string;
  remove_count : Z
}.

(** The dictionary [process_duplicates] returns with status [success]. *)
Record Summary := {
  total_images : Z;
  duplicate_groups : Z;
  total_duplicates : Z;
  total_to_remove : Z;
  remaining_images : Z;
  groups : list GroupData;
  deleted : Z;
  analysis_time : string;
  method : string;
  result_threshold : Z;
  source_directory : string
}.

(** The three dictionaries [process_duplicates] can return. *)
Inductive RunResult :=
  | NoImages
  | NoDuplicates (total_images : Z)
  | Success (summary : Summary).

Definition status (r : RunResult) : string :=
  match r with
  | NoImages => "no_images"
  | NoDuplicates _ => "no_duplicates"
  | Success _ => "success"
  end.

Definition len {A} (l : list A) : Z := Z.of_nat (length l).
Definition set_len (X : gset string) : Z := Z.of_nat (size X).

(** Body of [for i, group in enumerate(duplicate_groups, 1)], on
    [(i, group_info, total_duplicates, total_to_remove)]. *)
Definition plan_group `{SetIter} (env : Env)
    (st : Z * list GroupData * Z * Z) (group : gset string)
    : M (Z * list GroupData * Z * Z) :=
  let '(i, group_info, total_duplicates, total_to_remove) := st in
  let* representative := select_representative env group in
  let to_remove := group ∖ {[representative]} in
  let group_data :=
    {| group_id := i;
       total_count := set_len group;
       representative := representative;
       duplicates := iter_set to_remove;
       remove_count := set_len to_remove |} in
  ret (i + 1, group_info ++ [group_data],
       total_duplicates + set_len group,
       total_to_remove + set_len to_remove).

Definition plan_groups `{SetIter} (env : Env) (duplicate_groups : list (gset string))
    : M (list GroupData * Z * Z) :=
  let* st := foldM (plan_group env) (1, [], 0, 0) duplicate_groups in
  let '(_, group_info, total_duplicates, total_to_remove) := st in
  ret (group_info, total_duplicates, total_to_remove).

(** The [try] block of the deletion loops and its [except Exception]
    handler, on [deleted_count]. The two loops (with and without tqdm) do
    the same to the files and differ in how they report. *)
Definition delete_image (env : Env) (backup_dir : option string)
    (deleted_count : Z) (img_path : string) : M Z :=
  try_except
    (let* _ := match truthy backup_dir with
               | Some dir => copy2 env img_path (path_join dir (basename img_path))
               | None => ret tt
               end in
     let* _ := os_remove env img_path in
     ret (deleted_count + 1))
    (λ e, let* _ := print (DeleteFailed (TQDM_AVAILABLE env) (basename img_path) e) in
          ret deleted_count).

(** [for group_data in group_info: for img_path in group_data['duplicates']] *)
Definition delete_groups (env : Env) (backup_dir : option string)
    (group_info : list GroupData) : M Z :=
  foldM (λ deleted_count group_data,
           foldM (delete_image env backup_dir) deleted_count (duplicates group_data))
        0 group_info.

(** [save_results_to_file]: the three report files. What is written in
    them is the report writer's business; the content is left open. *)
Record ReportWriter := {
  render_json : RunResult → string;
  render_csv : World → RunResult → string;
  render_summary : World → RunResult → string
}.

Definition has_groups (r : RunResult) : bool :=
  match r with
  | Success s => match groups s with [] => false | _ :: _ => true end
  | _ => false
  end.

Definition save_results_to_file (env : Env) (rw : ReportWriter)
    (result : RunResult) (output_dir : string) : M unit :=
  let timestamp := now_stamp env in
  let json_path :=
    path_join output_dir ("duplicate_analysis_" +:+ timestamp +:+ ".json") in
  let* _ := write_file env json_path (render_json rw result) in
  let* _ :=
    if has_groups result then
      let csv_path :=
        path_join output_dir ("duplicates_to_remove_" +:+ timestamp +:+ ".csv") in
      λ w, write_file env csv_path (render_csv rw w result) w
    else ret tt in
  let summary_path :=
    path_join output_dir ("duplicate_summary_" +:+ timestamp +:+ ".txt") in
  λ w, write_file env summary_path (render_summary rw w result) w.

Definition process_duplicates `{SetIter} (env : Env) (rw : ReportWriter)
    (self : DuplicateImageRemover) (image_dir : string) (delete : bool)
    (backup_dir : option string) (save_results : bool) : M RunResult :=
  let* all_images := find_all_images image_dir in
  if len all_images =? 0 then ret NoImages
  else
    let* duplicates := find_duplicates env self image_dir in
    let duplicate_groups := group_duplicates duplicates in
    match duplicate_groups with
    | [] => ret (NoDuplicates (len all_images))
    | _ :: _ =>
        let* plan := plan_groups env duplicate_groups in
        let '(group_info, total_duplicates, total_to_remove) := plan in
        let* deleted_count :=
          if delete then
            let* _ := match truthy backup_dir with
                      | Some dir => makedirs env dir
                      | None => ret tt
                      end in
            delete_groups env backup_dir group_info
          else ret 0 in
        let result := Success
          {| total_images := len all_images;
             duplicate_groups := len duplicate_groups;
             total_duplicates := total_duplicates;
             total_to_remove := total_to_remove;
             remaining_images := len all_images - total_to_remove;
             groups := group_info;
             deleted := if delete then deleted_count else 0;
             analysis_time := now_iso env;
             method := method_name self;
             result_threshold := threshold self;
             source_directory := image_dir |} in
        let* _ := if save_results then save_results_to_file env rw result "."
                  else ret tt in
        ret result
    end.

(** The parsed command line: [args.image_dir], [args.delete],
    [args.method], [args.threshold], [args.backup]. *)
Record Args := {
  args_image_dir : string;
  args_delete : bool;
  args_method : string;
  args_threshold : Z;
  args_backup : option string
}.

(** [main], from the parsed arguments on. [confirm] is what [input]
    returns when the user is asked whether to delete without a backup. The
    [try] block catches every [Exception]; [main] returns [None]. *)
Definition main `{SetIter} (env : Env) (rw : ReportWriter) (args : Args)
    (confirm : string) : M unit :=
  λ w,
    if negb (path_exists w (args_image_dir args)) then (Return tt, w)
    else if (args_delete args &&
             match truthy (args_backup args) with Some _ => false | None => true end &&
             negb (String.eqb (lower confirm) "y"))%bool
    then (Return tt, w)
    else
      try_except
        (match init (args_method args) (args_threshold args) with
         | Raise e => raise e
         | Return remover =>
             let* result := process_duplicates env rw remover (args_image_dir args)
                              (args_delete args) (args_backup args) true in
             ret tt
         end)
        (λ e, ret tt) w.

(* ===================================================================== *)
(** * The vocabulary of the properties                                    *)
(* ===================================================================== *)

(** [a] and [b] are joined by a duplicate edge: one is a key and the other
    is in that key's list. *)
Definition edge (duplicates : DuplicateMap) (a b : string) : Prop :=
  ∃ k l, (k, l) ∈ duplicates ∧ ((k = a ∧ b ∈ l) ∨ (k = b ∧ a ∈ l)).

(** [a] appears as a key with a non-empty duplicate list or as a member of
    some key's duplicate list. *)
Definition in_relation (duplicates : DuplicateMap) (a : string) : Prop :=
  ∃ k l, (k, l) ∈ duplicates ∧ l ≠ [] ∧ (a = k ∨ a ∈ l).

(** No two clusters of the list, taken at different positions, share an
    element. *)
Definition pairwise_disjoint (groups : list (gset string)) : Prop :=
  ∀ i j Gi Gj, groups !! i = Some Gi → groups !! j = Some Gj → i ≠ j → Gi ## Gj.

(** [x] is in the cluster at exactly one position of the list. *)
Definition in_exactly_one (groups : list (gset string)) (x : string) : Prop :=
  ∃ i G, groups !! i = Some G ∧ x ∈ G ∧
         ∀ j G', groups !! j = Some G' → x ∈ G' → j = i.

(** The original statement of the partition property. *)
Definition partition_property `{SetIter} (duplicates : DuplicateMap) : Prop :=
  pairwise_disjoint (group_duplicates duplicates) ∧
  Forall (λ G, (2 ≤ size G)%nat) (group_duplicates duplicates) ∧
  ∀ x, in_relation duplicates x → in_exactly_one (group_duplicates duplicates) x.

(** What holds of [(best_image, best_size)] after the loop has gone
    through the members [l]. *)
Definition select_inv (env : Env) (w : World) (l : list string)
    (st : option string * Z) : Prop :=
  0 ≤ st.2 ∧
  (∀ p sz, p ∈ l → getsize env w p = Some sz → sz ≤ st.2) ∧
  match st.1 with
  | None => st.2 = 0
  | Some best => best ∈ l ∧ getsize env w best = Some st.2 ∧ 0 < st.2
  end.

(** What ties an entry of [group_info] to the cluster it was built from. *)
Definition decision_of (G : gset string) (d : GroupData) : Prop :=
  representative d ∈ G ∧
  (list_to_set (duplicates d) : gset string) = G ∖ {[representative d]} ∧
  (representative d ∉ duplicates d) ∧
  NoDup (duplicates d) ∧
  (length (duplicates d) = size G - 1)%nat ∧
  total_count d = set_len G ∧
  remove_count d = set_len G - 1.

(** The number of members of all clusters together. *)
Definition sum_sizes (groups : list (gset string)) : Z :=
  foldr (λ G n, set_len G + n) 0 groups.

(** Where [delete_image] copies [p] before removing it, if a backup
    directory is given. *)
Definition backup_target_in (D : gset string) (backup_dir : option string)
    (p : string) : option string :=
  match truthy backup_dir with
  | Some dir =>
      let dst := path_join dir (basename p) in
      Some (if bool_decide (dst ∈ D) then path_join dst (basename p) else dst)
  | None => None
  end.

Definition backup_target (w : World) (backup_dir : option string) (p : string)
    : option string :=
  backup_target_in (dirs w) backup_dir p.

(** The paths the deletion loops go through, in order. *)
Definition paths_of (group_info : list GroupData) : list string :=
  concat (duplicates <$> group_info).



Definition delete_failed (env : Env) (p : string) (w : World) : Prop :=
  ∃ e, DeleteFailed (TQDM_AVAILABLE env) (basename p) e ∈ stdout w.

(** The three files [save_results_to_file] may write. *)
Definition report_paths (env : Env) (output_dir : string) : list string :=
  [path_join output_dir ("duplicate_analysis_" +:+ now_stamp env +:+ ".json");
   path_join output_dir ("duplicates_to_remove_" +:+ now_stamp env +:+ ".csv");
   path_join output_dir ("duplicate_summary_" +:+ now_stamp env +:+ ".txt")].

(** [w'] has every file of [w], with the same content except perhaps at
    the paths [touched], and the same directories and terminal output. *)
Definition only_writes (touched : list string) (w w' : World) : Prop :=
  dirs w' = dirs w ∧ stdout w' = stdout w ∧
  (∀ p, p ∈ dom (files w) → p ∈ dom (files w')) ∧
  (∀ p, p ∉ touched → files w' !! p = files w !! p).

(** The statement of C9 as the specification gives it. *)
Definition reports_input_missing `{SetIter} env rw self image_dir delete
    backup_dir save_results w : Prop :=
  ∃ r w',
    process_duplicates env rw self image_dir delete backup_dir save_results w
      = (Return r, w') ∧
    status r ≠ "success" ∧ status r ≠ "no_duplicates".

(** The deletion part of [process_duplicates] ([if delete: ...]), giving
    [deleted_count]. *)
Definition delete_stage (env : Env) (delete : bool) (backup_dir : option string)
    (group_info : list GroupData) : M Z :=
  if delete then
    let* _ := match truthy backup_dir with
              | Some dir => makedirs env dir
              | None => ret tt
              end in
    delete_groups env backup_dir group_info
  else ret 0.

(** The last part of [process_duplicates] ([if save_results: ...]). *)
Definition save_stage (env : Env) (rw : ReportWriter) (save_results : bool)
    (result : RunResult) : M unit :=
  if save_results then save_results_to_file env rw result "." else ret tt.

(** The dictionary a run that gets through builds. *)
Definition success_result (env : Env) (self : DuplicateImageRemover)
    (image_dir : string) (delete : bool) (all_images : list string)
    (clusters : list (gset string)) (group_info : list GroupData)
    (total_duplicates total_to_remove deleted_count : Z) : RunResult :=
  Success
    {| total_images := len all_images;
       duplicate_groups := len clusters;
       total_duplicates := total_duplicates;
       total_to_remove := total_to_remove;
       remaining_images := len all_images - total_to_remove;
       groups := group_info;
       deleted := if delete then deleted_count else 0;
       analysis_time := now_iso env;
       method := method_name self;
       result_threshold := threshold self;
       source_directory := image_dir |}.

(** The ways a call of [process_duplicates] on the world [w] can go, with
    its result [r] and the world [w'] it leaves. *)
Inductive run_outcome `{SetIter} (env : Env) (rw : ReportWriter)
    (self : DuplicateImageRemover) (image_dir : string) (delete : bool)
    (backup_dir : option string) (save_results : bool) (w : World)
    : result RunResult → World → Prop :=
  | scan_failed e :
      find_all_images image_dir w = (Raise e, w) →
      run_outcome env rw self image_dir delete backup_dir save_results w (Raise e) w
  | no_images :
      find_all_images image_dir w = (Return [], w) →
      run_outcome env rw self image_dir delete backup_dir save_results w
        (Return NoImages) w
  | hasher_failed all_images e :
      find_all_images image_dir w = (Return all_images, w) → all_images ≠ [] →
      find_duplicates env self image_dir w = (Raise e, w) →
      run_outcome env rw self image_dir delete backup_dir save_results w (Raise e) w
  | no_duplicates all_images dups :
      find_all_images image_dir w = (Return all_images, w) → all_images ≠ [] →
      find_duplicates env self image_dir w = (Return dups, w) →
      group_duplicates dups = [] →
      run_outcome env rw self image_dir delete backup_dir save_results w
        (Return (NoDuplicates (len all_images))) w
  | deletion_failed all_images dups group_info td tr e w2 :
      find_all_images image_dir w = (Return all_images, w) → all_images ≠ [] →
      find_duplicates env self image_dir w = (Return dups, w) →
      group_duplicates dups ≠ [] →
      plan_groups env (group_duplicates dups) w = (Return (group_info, td, tr), w) →
      delete_stage env delete backup_dir group_info w = (Raise e, w2) →
      run_outcome env rw self image_dir delete backup_dir save_results w (Raise e) w2
  | saving_failed all_images dups group_info td tr deleted_count w2 e w3 :
      find_all_images image_dir w = (Return all_images, w) → all_images ≠ [] →
      find_duplicates env self image_dir w = (Return dups, w) →
      group_duplicates dups ≠ [] →
      plan_groups env (group_duplicates dups) w = (Return (group_info, td, tr), w) →
      delete_stage env delete backup_dir group_info w = (Return deleted_count, w2) →
      save_stage env rw save_results
        (success_result env self image_dir delete all_images (group_duplicates dups)
           group_info td tr deleted_count) w2 = (Raise e, w3) →
      run_outcome env rw self image_dir delete backup_dir save_results w (Raise e) w3
  | succeeded all_images dups group_info td tr deleted_count w2 w3 :
      find_all_images image_dir w = (Return all_images, w) → all_images ≠ [] →
      find_duplicates env self image_dir w = (Return dups, w) →
      group_duplicates dups ≠ [] →
      plan_groups env (group_duplicates dups) w = (Return (group_info, td, tr), w) →
      delete_stage env delete backup_dir group_info w = (Return deleted_count, w2) →
      save_stage env rw save_results
        (success_result env self image_dir delete all_images (group_duplicates dups)
           group_info td tr deleted_count) w2 = (Return tt, w3) →
      run_outcome env rw self image_dir delete backup_dir save_results w
        (Return (success_result env self image_dir delete all_images
                   (group_duplicates dups) group_info td tr deleted_count)) w3.

(** [b] is a neighbour of [a] in the graph. *)
Definition graph_edge (graph : Graph) (a b : string) : Prop :=
  b ∈ graph_get graph a.

(** In a traversal started at [image], everything on the stack and in the
    group is reachable from [image] along edges of the graph. *)
Definition dfs_reach (graph : Graph) (image : string) (s : DfsState) : Prop :=
  (∀ x, x ∈ stack s → rtc (graph_edge graph) image x) ∧
  (∀ x, x ∈ group s → rtc (graph_edge graph) image x).

(** All members of [G] are reachable from one of them. *)
Definition reachable_from_one (graph : Graph) (G : gset string) : Prop :=
  ∃ v, v ∈ G ∧ ∀ x, x ∈ G → rtc (graph_edge graph) v x.

(** What holds of the loop state throughout one traversal of the graph
    [graph] over the nodes [nodes], started with the visited set [vis0]. *)
Definition dfs_inv (graph : Graph) (nodes vis0 : gset string) (s : DfsState) : Prop :=
  visited s = vis0 ∪ group s ∧
  group s ## vis0 ∧
  group s ⊆ nodes ∧
  (∀ x, x ∈ stack s → x ∈ nodes) ∧
  (∀ v n, v ∈ group s → n ∈ graph_get graph v → n ∈ visited s ∨ n ∈ stack s).

(** The measure that goes down with every iteration of the traversal. *)
Definition potential (graph : Graph) (nodes : gset string) (s : DfsState) : nat :=
  (length (stack s) + cost_sum graph (nodes ∖ visited s))%nat.

(** A set of nodes that contains every neighbour of its members. *)
Definition closed_under_edges (graph : Graph) (G : gset string) : Prop :=
  ∀ v n, v ∈ G → n ∈ graph_get graph v → n ∈ G.

(** What holds of [(visited, groups)] between two iterations of the
    outer loop. *)
Definition outer_inv (graph : Graph) (nodes : gset string)
    (st : gset string * list (gset string)) : Prop :=
  st.1 ⊆ nodes ∧
  closed_under_edges graph st.1 ∧
  Forall (λ G, (1 < size G)%nat ∧ G ⊆ st.1 ∧ closed_under_edges graph G) st.2 ∧
  pairwise_disjoint st.2 ∧
  (∀ x y, x ∈ st.1 → y ∈ graph_get graph x → y ≠ x → ∃ G, G ∈ st.2 ∧ x ∈ G).

(* ===================================================================== *)
(** * Concrete worlds and runs                                            *)
(* ===================================================================== *)

Definition no_faults : Faults :=
  {| stat_fault := λ _, false; copy_fault := λ _ _, false;
     remove_fault := λ _, false; mkdir_fault := λ _, false;
     write_fault := λ _, false |}.

(** A hasher that reports the duplicate map [d]. *)
Definition fixed_hasher (d : DuplicateMap) : Hasher :=
  {| Encodings := unit;
     encode_images := λ _ _, Return tt;
     hasher_find_duplicates := λ _ _, Return d |}.

Definition example_env (f : Faults) (d : DuplicateMap) : Env :=
  {| faults := f; hasher_of := λ _, fixed_hasher d; TQDM_AVAILABLE := false;
     now_stamp := "20240101_000000"; now_iso := "2024-01-01T00:00:00" |}.

Definition example_writer : ReportWriter :=
  {| render_json := λ _, "json"; render_csv := λ _ _, "csv";
     render_summary := λ _ _, "summary" |}.

Definition example_remover : DuplicateImageRemover :=
  {| threshold := 3; method_name := "phash"; hasher := PHash |}.

(** Five copies of one picture. *)
Definition five_world : World :=
  {| files := list_to_map [("d/1.jpg", "x"); ("d/2.jpg", "xx"); ("d/3.jpg", "xxx");
                           ("d/4.jpg", "xxxx"); ("d/5.jpg", "xxxxx")];
     dirs := {["d"; "bk"]};
     stdout := [] |}.

(** The copy of [d/2.jpg] and the removal of [d/3.jpg] are refused. *)
Definition five_faults : Faults :=
  {| stat_fault := λ _, false;
     copy_fault := λ src _, String.eqb src "d/2.jpg";
     remove_fault := λ p, String.eqb p "d/3.jpg";
     mkdir_fault := λ _, false;
     write_fault := λ _, false |}.

Definition five_plan : list GroupData :=
  [{| group_id := 1; total_count := 5; representative := "d/5.jpg";
      duplicates := ["d/1.jpg"; "d/2.jpg"; "d/3.jpg"; "d/4.jpg"];
      remove_count := 4 |}].

(** A file content of [n] bytes. *)
Fixpoint blob (n : nat) : string :=
  match n with
  | O => ""
  | S n' => String "x" (blob n')
  end.

(** The simple pair: [d/a.jpg] of 100 bytes and [d/b.jpg] of 200 bytes,
    each reported as the other's duplicate. *)
Definition pair_world : World :=
  {| files := list_to_map [("d/a.jpg", blob 100); ("d/b.jpg", blob 200)];
     dirs := {["d"]};
     stdout := [] |}.

Definition pair_map : DuplicateMap :=
  [("d/a.jpg", ["d/b.jpg"]); ("d/b.jpg", ["d/a.jpg"])].

Definition pair_env : Env := example_env no_faults pair_map.

(** A group of two paths: [a.jpg] does not exist, [b.jpg] is an empty
    file. *)
Definition zero_size_world : World :=
  {| files := {["b.jpg" := ""]}; dirs := ∅; stdout := [] |}.



(* ===================================================================== *)
(** * Proof tactics                                                       *)
(* ===================================================================== *)

Ltac tuple_eq :=
  repeat match goal with
         | |- (_, _) = (_, _) => f_equal
         | |- Return _ = Return _ => f_equal
         end; try done; try lia.

Ltac by_compute :=
  match goal with
  | |- ?P => apply (bool_decide_unpack P); vm_compute; exact I
  end.

(** Case analysis on the next step of a monadic computation. *)
Tactic Notation "run_step" "as" simple_intropattern(pat) "eqn" ":" ident(Heq) :=
  match goal with
  | |- (let (_, _) := ?step in _) = _ → _ => destruct step as pat eqn:Heq
  end.

(* ===================================================================== *)
(** * Graph construction                                                  *)
(* ===================================================================== *)

Lemma elem_of_graph_add x y (graph : Graph) a b :
  b ∈ graph_get (graph_add x y graph) a ↔ (a = x ∧ b = y) ∨ b ∈ graph_get graph a.
Proof.
  unfold graph_add, graph_get at 1.
  destruct (decide (x = a)) as [->|Hne].
  - rewrite lookup_insert_eq. simpl. set_solver.
  - rewrite lookup_insert_ne by done. fold (graph_get graph a). naive_solver.
Qed.

Lemma add_duplicate_fold main l (graph : Graph) all :
  ∀ graph' all', foldl (add_duplicate main) (graph, all) l = (graph', all') →
    (∀ a b, b ∈ graph_get graph' a ↔
            b ∈ graph_get graph a ∨ (a = main ∧ b ∈ l) ∨ (b = main ∧ a ∈ l)) ∧
    (∀ a, a ∈ all' ↔ a ∈ all ∨ a ∈ l).
Proof.
  revert graph all. induction l as [|d l IH]; intros graph all graph' all' Hf.
  - simpl in Hf. injection Hf as <- <-. split; intros; set_solver.
  - simpl in Hf. apply IH in Hf as [Hg Ha]. split.
    + intros a b. rewrite Hg, !elem_of_graph_add, !elem_of_cons. naive_solver.
    + intros a. rewrite Ha. set_solver.
Qed.

Lemma add_entry_spec (graph : Graph) all main l graph' all' :
  add_entry (graph, all) (main, l) = (graph', all') →
    (∀ a b, b ∈ graph_get graph' a ↔
            b ∈ graph_get graph a ∨ (a = main ∧ b ∈ l) ∨ (b = main ∧ a ∈ l)) ∧
    (∀ a, a ∈ all' ↔ a ∈ all ∨ (l ≠ [] ∧ (a = main ∨ a ∈ l))).
Proof.
  unfold add_entry. destruct l as [|d l].
  - intros [= <- <-]. split; intros; set_solver.
  - intros Hf. apply add_duplicate_fold in Hf as [Hg Ha]. split; [done|].
    intros a. rewrite Ha. set_solver.
Qed.

Lemma edge_cons main l (duplicates : DuplicateMap) a b :
  edge ((main, l) :: duplicates) a b ↔
  ((a = main ∧ b ∈ l) ∨ (b = main ∧ a ∈ l)) ∨ edge duplicates a b.
Proof.
  unfold edge. split.
  - intros (k & l' & Hin & Hkl). apply elem_of_cons in Hin as [[= -> ->]|Hin].
    + left. naive_solver.
    + right. by exists k, l'.
  - intros [Hkl|(k & l' & Hin & Hkl)].
    + exists main, l. split; [by left|naive_solver].
    + exists k, l'. split; [by right|done].
Qed.

Lemma in_relation_cons main l (duplicates : DuplicateMap) a :
  in_relation ((main, l) :: duplicates) a ↔
  (l ≠ [] ∧ (a = main ∨ a ∈ l)) ∨ in_relation duplicates a.
Proof.
  unfold in_relation. split.
  - intros (k & l' & Hin & Hkl). apply elem_of_cons in Hin as [[= -> ->]|Hin].
    + by left.
    + right. by exists k, l'.
  - intros [Hkl|(k & l' & Hin & Hkl)].
    + exists main, l. split; [by left|done].
    + exists k, l'. split; [by right|done].
Qed.

Lemma add_entry_fold (duplicates : DuplicateMap) (graph : Graph) all :
  ∀ graph' all', foldl add_entry (graph, all) duplicates = (graph', all') →
    (∀ a b, b ∈ graph_get graph' a ↔ b ∈ graph_get graph a ∨ edge duplicates a b) ∧
    (∀ a, a ∈ all' ↔ a ∈ all ∨ in_relation duplicates a).
Proof.
  revert graph all.
  induction duplicates as [|[main l] m IH]; intros graph all graph' all' Hf.
  - simpl in Hf. injection Hf as <- <-.
    unfold edge, in_relation. split; intros; set_solver.
  - cbn [foldl] in Hf.
    destruct (add_entry (graph, all) (main, l)) as [g1 a1] eqn:He.
    apply add_entry_spec in He as [Hg1 Ha1].
    apply IH in Hf as [Hg Ha]. split.
    + intros a b. rewrite Hg, Hg1, edge_cons. tauto.
    + intros a. rewrite Ha, Ha1, in_relation_cons. tauto.
Qed.

Lemma build_graph_spec (duplicates : DuplicateMap) graph all :
  build_graph duplicates = (graph, all) →
    (∀ a b, b ∈ graph_get graph a ↔ edge duplicates a b) ∧
    (∀ a, a ∈ all ↔ in_relation duplicates a).
Proof.
  intros Hb. apply add_entry_fold in Hb as [Hg Ha]. split.
  - intros a b. rewrite Hg. unfold graph_get. rewrite lookup_empty. set_solver.
  - intros a. rewrite Ha. set_solver.
Qed.

Lemma edge_sym duplicates a b : edge duplicates a b → edge duplicates b a.
Proof. intros (k & l & ? & ?). exists k, l. naive_solver. Qed.

Lemma edge_in_relation duplicates a b :
  edge duplicates a b → in_relation duplicates a ∧ in_relation duplicates b.
Proof.
  intros (k & l & Hin & [[-> Hb]|[-> Ha]]).
  - assert (l ≠ []) by (intros ->; inversion Hb).
    split; exists a, l; auto.
  - assert (l ≠ []) by (intros ->; inversion Ha).
    split; exists b, l; auto.
Qed.

(* ===================================================================== *)
(** * The traversal                                                       *)
(* ===================================================================== *)

Lemma elem_of_iter_set `{SetIter} (X : gset string) x : x ∈ iter_set X ↔ x ∈ X.
Proof. by rewrite iter_set_perm, elem_of_elements. Qed.

Lemma length_iter_set `{SetIter} (X : gset string) : length (iter_set X) = size X.
Proof. by rewrite iter_set_perm. Qed.

Lemma NoDup_iter_set `{SetIter} (X : gset string) : NoDup (iter_set X).
Proof. rewrite iter_set_perm. apply NoDup_elements. Qed.

Lemma elem_of_push_neighbors vis stk nb x :
  x ∈ push_neighbors vis stk nb ↔ x ∈ stk ∨ (x ∈ nb ∧ x ∉ vis).
Proof.
  unfold push_neighbors. revert stk.
  induction nb as [|n nb IH]; intros stk; simpl.
  - set_solver.
  - rewrite IH. destruct (decide (n ∈ vis)); set_solver.
Qed.

Lemma length_push_neighbors vis stk nb :
  (length (push_neighbors vis stk nb) ≤ length stk + length nb)%nat.
Proof.
  unfold push_neighbors. revert stk.
  induction nb as [|n nb IH]; intros stk; simpl; [lia|].
  etrans; [apply IH|]. destruct (decide (n ∈ vis)); simpl; lia.
Qed.

Lemma cost_sum_remove (graph : Graph) (X : gset string) x :
  x ∈ X → cost_sum graph X = (node_cost graph x + cost_sum graph (X ∖ {[x]}))%nat.
Proof.
  intros Hx. unfold cost_sum.
  assert (X = {[x]} ∪ X ∖ {[x]}) as HX.
  { apply set_eq. intros y. destruct (decide (y = x)); set_solver. }
  rewrite HX at 1. rewrite elements_union_singleton by set_solver. done.
Qed.

Lemma cost_sum_mono (graph : Graph) (X Y : gset string) :
  X ⊆ Y → (cost_sum graph X ≤ cost_sum graph Y)%nat.
Proof.
  intros Hsub. unfold cost_sum.
  assert (Y = X ∪ Y ∖ X) as HY.
  { apply set_eq. intros y. destruct (decide (y ∈ X)); set_solver. }
  rewrite HY. rewrite elements_disj_union by set_solver.
  rewrite sum_list_with_app. lia.
Qed.

Lemma pairwise_disjoint_snoc groups G :
  pairwise_disjoint groups → (∀ G', G' ∈ groups → G' ## G) →
  pairwise_disjoint (groups ++ [G]).
Proof.
  intros Hpd Hnew i j Gi Gj Hi Hj Hne.
  apply lookup_snoc_Some in Hi as [[Hil Hi]|[-> <-]];
    apply lookup_snoc_Some in Hj as [[Hjl Hj]|[-> <-]].
  - by eapply Hpd.
  - apply Hnew. by eapply list_elem_of_lookup_2.
  - symmetry. apply Hnew. by eapply list_elem_of_lookup_2.
  - done.
Qed.

Lemma dfs_loop_group_mono `{SetIter} (graph : Graph) fuel s :
  group s ⊆ group (dfs_loop fuel graph s).
Proof.
  revert s. induction fuel as [|fuel IH]; intros s; simpl; [done|].
  destruct (dfs_step graph s) as [s'|] eqn:Hstep; [|done].
  etrans; [|apply IH]. unfold dfs_step in Hstep.
  destruct (stack s); [done|].
  destruct (decide _); injection Hstep as <-; simpl; set_solver.
Qed.

Lemma dfs_step_reach `{SetIter} (graph : Graph) image s s' :
  dfs_reach graph image s → dfs_step graph s = Some s' → dfs_reach graph image s'.
Proof.
  intros [Hstk Hgrp]. unfold dfs_step.
  destruct (stack s) as [|current rest] eqn:Hs; [done|].
  assert (rtc (graph_edge graph) image current) as Hcur by (apply Hstk; by left).
  destruct (decide (current ∈ visited s)); intros [= <-]; split; cbn.
  - intros x Hx. apply Hstk. by right.
  - done.
  - intros x [Hx|[Hx _]]%elem_of_push_neighbors.
    + apply Hstk. by right.
    + apply elem_of_iter_set in Hx. by eapply rtc_r.
  - intros x [->%elem_of_singleton|Hx]%elem_of_union; auto.
Qed.

Lemma dfs_loop_reach `{SetIter} (graph : Graph) image fuel s :
  dfs_reach graph image s → dfs_reach graph image (dfs_loop fuel graph s).
Proof.
  revert s. induction fuel as [|fuel IH]; intros s Hreach; simpl; [done|].
  destruct (dfs_step graph s) as [s'|] eqn:Hstep; [|done].
  apply IH. by eapply dfs_step_reach.
Qed.

(** Every group the outer loop collects is connected. *)
Lemma find_groups_connected `{SetIter} (graph : Graph) nodes :
  Forall (reachable_from_one graph) (find_groups graph nodes).2.
Proof.
  unfold find_groups.
  assert (Forall (reachable_from_one graph) (∅ : gset string, [] : list (gset string)).2)
    as Hinit by constructor.
  revert Hinit. generalize (∅ : gset string, [] : list (gset string)).
  induction (iter_set nodes) as [|image images IH]; intros st Hst; [done|].
  cbn [foldl]. apply IH. destruct st as [vis groups]. unfold visit_image.
  destruct (decide (image ∈ vis)); [done|]. cbn [snd] in *.
  set (s := dfs_loop _ _ _).
  destruct (decide (1 < size (group s))%nat) as [Hsz|]; [|done].
  apply Forall_app. split; [done|]. apply Forall_singleton.
  assert (dfs_reach graph image s) as [_ Hgrp].
  { apply dfs_loop_reach. split; cbn.
    - by intros x ->%list_elem_of_singleton.
    - set_solver. }
  exists image. split; [|done].
  unfold s, dfs_fuel. cbn [dfs_loop]. unfold dfs_step. cbn [stack visited group].
  destruct (decide (image ∈ vis)); [done|].
  eapply dfs_loop_group_mono. cbn [group]. set_solver.
Qed.

Section traversal.
Context `{SetIter}.
Variable graph : Graph.
Variable nodes : gset string.
Hypothesis graph_closed : ∀ a b, b ∈ graph_get graph a → b ∈ nodes.

Lemma dfs_step_inv vis0 s s' :
  dfs_inv graph nodes vis0 s → dfs_step graph s = Some s' → dfs_inv graph nodes vis0 s'.
Proof.
  intros (Hvis & Hdisj & Hsub & Hstk & Hnb). unfold dfs_step.
  destruct (stack s) as [|current rest] eqn:Hs; [done|].
  destruct (decide (current ∈ visited s)) as [Hin|Hnin]; intros [= <-];
    unfold dfs_inv; simpl.
  - repeat split; try done.
    + intros x Hx. apply Hstk. by right.
    + intros v n Hv Hn. destruct (Hnb v n Hv Hn) as [?|[->|?]%elem_of_cons]; auto.
  - repeat split.
    + rewrite Hvis. set_solver.
    + rewrite Hvis in Hnin. set_solver.
    + assert (current ∈ nodes) by (apply Hstk; by left). set_solver.
    + intros x [Hx|[Hx _]]%elem_of_push_neighbors.
      * apply Hstk. by right.
      * apply elem_of_iter_set in Hx. by eapply graph_closed.
    + intros v n Hv Hn.
      destruct (decide (n ∈ {[current]} ∪ visited s)) as [?|Hnv]; [by left|].
      right. apply elem_of_push_neighbors.
      apply elem_of_union in Hv as [->%elem_of_singleton|Hv].
      * right. split; [by apply elem_of_iter_set|done].
      * destruct (Hnb v n Hv Hn) as [?|[->|?]%elem_of_cons]; [set_solver|set_solver|by left].
Qed.

Lemma dfs_loop_inv vis0 fuel s :
  dfs_inv graph nodes vis0 s → dfs_inv graph nodes vis0 (dfs_loop fuel graph s).
Proof.
  revert s. induction fuel as [|fuel IH]; intros s Hinv; simpl; [done|].
  destruct (dfs_step graph s) as [s'|] eqn:Hstep; [|done].
  apply IH. by eapply dfs_step_inv.
Qed.

Lemma dfs_step_potential s s' :
  (∀ x, x ∈ stack s → x ∈ nodes) → dfs_step graph s = Some s' →
  (potential graph nodes s' < potential graph nodes s)%nat.
Proof.
  intros Hstk. unfold dfs_step, potential.
  destruct (stack s) as [|current rest] eqn:Hs; [done|].
  destruct (decide (current ∈ visited s)) as [Hin|Hnin]; intros [= <-]; simpl.
  - lia.
  - assert (current ∈ nodes ∖ visited s) as Hc.
    { apply elem_of_difference. split; [apply Hstk; by left|done]. }
    rewrite (cost_sum_remove graph _ _ Hc).
    assert (nodes ∖ ({[current]} ∪ visited s) = nodes ∖ visited s ∖ {[current]})
      as -> by set_solver.
    pose proof (length_push_neighbors ({[current]} ∪ visited s) rest
                  (iter_set (graph_get graph current))) as Hlen.
    rewrite length_iter_set in Hlen. unfold node_cost. lia.
Qed.

(** The loop ends within the fuel: the stack is empty when it stops. *)
Lemma dfs_loop_finishes vis0 fuel s :
  dfs_inv graph nodes vis0 s → (potential graph nodes s ≤ fuel)%nat →
  stack (dfs_loop fuel graph s) = [].
Proof.
  revert s. induction fuel as [|fuel IH]; intros s Hinv Hpot.
  - unfold potential in Hpot. simpl. destruct (stack s); [done|simpl in Hpot; lia].
  - simpl. destruct (dfs_step graph s) as [s'|] eqn:Hstep.
    + apply IH; [by eapply dfs_step_inv|].
      pose proof (dfs_step_potential s s' (proj1 (proj2 (proj2 (proj2 Hinv)))) Hstep).
      lia.
    + unfold dfs_step in Hstep. destruct (stack s); [done|].
      by destruct (decide _).
Qed.

End traversal.

Section components.
Context `{SetIter}.
Variable graph : Graph.
Variable nodes : gset string.
Hypothesis graph_sym : ∀ a b, b ∈ graph_get graph a → a ∈ graph_get graph b.
Hypothesis graph_closed : ∀ a b, b ∈ graph_get graph a → b ∈ nodes.

(** One complete traversal started at an unvisited node. *)
Lemma dfs_from_unvisited vis0 image :
  image ∈ nodes → image ∉ vis0 → closed_under_edges graph vis0 →
  let s := dfs_loop (dfs_fuel graph nodes) graph
             {| stack := [image]; visited := vis0; group := ∅ |} in
  visited s = vis0 ∪ group s ∧ group s ## vis0 ∧ group s ⊆ nodes ∧
  image ∈ group s ∧ closed_under_edges graph (group s) ∧
  closed_under_edges graph (visited s).
Proof.
  intros Himg Hnv Hcl s.
  set (s0 := {| stack := [image]; visited := vis0; group := ∅ |}) in *.
  assert (dfs_inv graph nodes vis0 s0) as Hinv0.
  { unfold dfs_inv, s0. simpl. repeat split; set_solver. }
  pose proof (dfs_loop_inv graph nodes graph_closed vis0 (dfs_fuel graph nodes) s0 Hinv0)
    as (Hvis & Hdisj & Hsub & _ & Hnb).
  assert (stack s = []) as Hend.
  { apply (dfs_loop_finishes graph nodes graph_closed vis0); [done|].
    unfold potential, dfs_fuel, s0. simpl.
    assert (nodes ∖ vis0 ⊆ nodes) as Hsub' by set_solver.
    apply (cost_sum_mono graph) in Hsub'. lia. }
  fold s in Hvis, Hdisj, Hsub, Hnb.
  assert (closed_under_edges graph (group s)) as Hclg.
  { intros v n Hv Hn. destruct (Hnb v n Hv Hn) as [Hin|Hin].
    - rewrite Hvis in Hin. apply elem_of_union in Hin as [Hin|Hin]; [|done].
      exfalso. apply graph_sym in Hn. specialize (Hcl n v Hin Hn). set_solver.
    - rewrite Hend in Hin. inversion Hin. }
  repeat split; try done.
  - unfold s, dfs_fuel. cbn [dfs_loop]. unfold dfs_step, s0. cbn [stack visited group].
    destruct (decide (image ∈ vis0)); [done|].
    eapply dfs_loop_group_mono. cbn [group]. set_solver.
  - intros v n Hv Hn. rewrite Hvis in *.
    apply elem_of_union in Hv as [Hv|Hv]; [|].
    + apply elem_of_union_l. by eapply Hcl.
    + apply elem_of_union_r. by eapply Hclg.
Qed.

Lemma visit_image_inv st image :
  image ∈ nodes → outer_inv graph nodes st →
  outer_inv graph nodes (visit_image graph nodes st image) ∧
  st.1 ⊆ (visit_image graph nodes st image).1 ∧
  image ∈ (visit_image graph nodes st image).1.
Proof.
  intros Himg Hinv. destruct st as [vis groups]. unfold visit_image.
  destruct (decide (image ∈ vis)) as [Hin|Hnin]; [done|].
  destruct Hinv as (Hsub & Hcl & Hall & Hpd & Hcov). cbn [fst snd] in *.
  pose proof (dfs_from_unvisited vis image Himg Hnin Hcl) as Hdfs.
  set (s := dfs_loop _ _ _) in *. cbv zeta in Hdfs.
  destruct Hdfs as (Hvis & Hdisj & Hgsub & Hig & Hclg & Hclv).
  split; [|rewrite Hvis; set_solver].
  assert (Forall (λ G, (1 < size G)%nat ∧ G ⊆ visited s ∧ closed_under_edges graph G) groups)
    as Hall'.
  { eapply Forall_impl; [exact Hall|]. cbv beta. intros G (? & ? & ?).
    rewrite Hvis. repeat split; [done|set_solver|done]. }
  unfold outer_inv. cbn [fst snd]. repeat split.
  - rewrite Hvis. set_solver.
  - done.
  - destruct (decide (1 < size (group s))%nat); [|done].
    apply Forall_app. split; [done|]. apply Forall_singleton.
    rewrite Hvis. repeat split; [done|set_solver|done].
  - destruct (decide (1 < size (group s))%nat); [|done].
    apply pairwise_disjoint_snoc; [done|].
    intros G' HG'. rewrite Forall_forall in Hall.
    destruct (Hall G' HG') as (_ & ? & _). set_solver.
  - intros x y Hx Hy Hne. rewrite Hvis in Hx.
    apply elem_of_union in Hx as [Hx|Hx].
    + destruct (Hcov x y Hx Hy Hne) as (G & HG & HxG).
      exists G. split; [|done]. destruct (decide _); [|done].
      apply elem_of_app. by left.
    + assert (y ∈ group s) as HyG by (by eapply Hclg).
      assert (1 < size (group s))%nat as Hsz.
      { assert ({[x; y]} ⊆ group s) as Hxy by set_solver.
        apply subseteq_size in Hxy.
        rewrite size_union in Hxy by set_solver.
        rewrite !size_singleton in Hxy. lia. }
      exists (group s). split; [|done].
      destruct (decide _); [|done]. apply elem_of_app. right. by left.
Qed.

Lemma visit_images_inv images st :
  (∀ x, x ∈ images → x ∈ nodes) → outer_inv graph nodes st →
  let st' := foldl (visit_image graph nodes) st images in
  outer_inv graph nodes st' ∧ st.1 ⊆ st'.1 ∧ (∀ x, x ∈ images → x ∈ st'.1).
Proof.
  revert st. induction images as [|image images IH]; intros st Himgs Hinv; simpl.
  - split; [done|]. split; [done|]. intros x Hx. inversion Hx.
  - destruct (visit_image_inv st image) as (Hinv1 & Hsub1 & Hin1);
      [apply Himgs; by left|done|].
    destruct (IH (visit_image graph nodes st image)) as (Hinv2 & Hsub2 & Hin2);
      [intros x Hx; apply Himgs; by right|done|].
    split; [done|]. split; [set_solver|].
    intros x [->|Hx]%elem_of_cons; [set_solver|by apply Hin2].
Qed.

Lemma find_groups_spec :
  outer_inv graph nodes (find_groups graph nodes) ∧ (find_groups graph nodes).1 = nodes.
Proof.
  unfold find_groups.
  destruct (visit_images_inv (iter_set nodes) (∅, [])) as (Hinv & _ & Hall).
  - intros x. by rewrite elem_of_iter_set.
  - unfold outer_inv, closed_under_edges, pairwise_disjoint. simpl.
    repeat split; set_solver.
  - split; [done|]. apply set_eq. intros x. split.
    + apply Hinv.
    + intros Hx. apply Hall. by apply elem_of_iter_set.
Qed.
End components.

(* ===================================================================== *)
(** * What group_duplicates returns                                       *)
(* ===================================================================== *)

Lemma group_duplicates_spec `{SetIter} (duplicates : DuplicateMap) :
  Forall (λ G, (1 < size G)%nat ∧
               (∀ x, x ∈ G → in_relation duplicates x) ∧
               (∀ v n, v ∈ G → edge duplicates v n → n ∈ G))
         (group_duplicates duplicates) ∧
  pairwise_disjoint (group_duplicates duplicates) ∧
  (∀ x y, edge duplicates x y → y ≠ x →
          ∃ G, G ∈ group_duplicates duplicates ∧ x ∈ G).
Proof.
  unfold group_duplicates.
  destruct (build_graph duplicates) as [graph all] eqn:Hb.
  apply build_graph_spec in Hb as [Hg Ha].
  assert (∀ a b, b ∈ graph_get graph a → a ∈ graph_get graph b) as Hsym.
  { intros a b. rewrite !Hg. apply edge_sym. }
  assert (∀ a b, b ∈ graph_get graph a → b ∈ all) as Hcl.
  { intros a b. rewrite Hg, Ha. intros He. by apply edge_in_relation in He as [_ ?]. }
  destruct (find_groups_spec graph all Hsym Hcl)
    as [(_ & _ & Hall & Hpd & Hcov) Hvis].
  split; [|split].
  - eapply Forall_impl; [exact Hall|]. cbv beta. intros G (Hsz & Hsub & Hclg).
    split; [done|]. split.
    + intros x Hx. apply Ha. rewrite <-Hvis. by apply Hsub.
    + intros v n Hv He. apply (Hclg v n Hv). by apply Hg.
  - done.
  - intros x y He Hne. apply (Hcov x y); [|by apply Hg|done].
    rewrite Hvis. apply Ha. by apply edge_in_relation in He as [? _].
Qed.

(** Once the stack is empty the loop has stopped: more fuel changes
    nothing. *)
Lemma dfs_loop_stable `{SetIter} (graph : Graph) fuel extra s :
  stack (dfs_loop fuel graph s) = [] →
  dfs_loop (fuel + extra) graph s = dfs_loop fuel graph s.
Proof.
  revert s. induction fuel as [|fuel IH]; intros s Hend; cbn [dfs_loop Nat.add] in *.
  - destruct extra as [|extra]; [done|]. cbn [dfs_loop].
    unfold dfs_step. by rewrite Hend.
  - destruct (dfs_step graph s) as [s'|]; [by apply IH|done].
Qed.

(** Every traversal [group_duplicates] starts ends within its fuel: the
    [while] loop of the model is the loop of the source, run to its end. *)
Lemma group_duplicates_traversals_finish `{SetIter} (duplicates : DuplicateMap)
    graph all vis image :
  build_graph duplicates = (graph, all) → image ∈ all →
  stack (dfs_loop (dfs_fuel graph all) graph
           {| stack := [image]; visited := vis; group := ∅ |}) = [].
Proof.
  intros Hb Himg. apply build_graph_spec in Hb as [Hg Ha].
  assert (∀ a b, b ∈ graph_get graph a → b ∈ all) as Hcl.
  { intros a b. rewrite Hg, Ha. intros He. by apply edge_in_relation in He as [_ ?]. }
  apply (dfs_loop_finishes graph all Hcl vis).
  - unfold dfs_inv. cbn. repeat split; set_solver.
  - unfold potential, dfs_fuel. cbn.
    assert (all ∖ vis ⊆ all) as Hsub by set_solver.
    apply (cost_sum_mono graph) in Hsub. lia.
Qed.

Lemma rtc_symmetric_rel {A} (R : relation A) x y :
  (∀ a b, R a b → R b a) → rtc R x y → rtc R y x.
Proof.
  intros Hsym Hxy. induction Hxy as [|x y z Hxy _ IH]; [done|].
  eapply rtc_r; [exact IH|]. by apply Hsym.
Qed.

(** Every emitted cluster is the connected component of each of its
    members: the images reachable from it along duplicate edges. *)
Lemma group_duplicates_components `{SetIter} (duplicates : DuplicateMap) G x :
  G ∈ group_duplicates duplicates → x ∈ G →
  ∀ y, y ∈ G ↔ rtc (edge duplicates) x y.
Proof.
  intros HG Hx y. split.
  - intros Hy. revert HG. unfold group_duplicates.
    destruct (build_graph duplicates) as [graph all] eqn:Hb.
    apply build_graph_spec in Hb as [Hg _]. intros HG.
    pose proof (find_groups_connected graph all) as Hconn.
    rewrite Forall_forall in Hconn. destruct (Hconn G HG) as (v & _ & Hv).
    assert (∀ z, z ∈ G → rtc (edge duplicates) v z) as Hv'.
    { intros z Hz. eapply rtc_subrel; [|by apply Hv].
      intros a b. unfold graph_edge. by rewrite Hg. }
    etrans; [|by apply Hv'].
    apply rtc_symmetric_rel; [apply edge_sym|by apply Hv'].
  - destruct (group_duplicates_spec duplicates) as (Hall & _).
    rewrite Forall_forall in Hall. destruct (Hall G HG) as (_ & _ & Hcl).
    intros Hxy. induction Hxy as [|a b c Hab _ IH]; [done|].
    apply IH. by apply (Hcl a b).
Qed.

(** A path that leaves [x] starts with an edge from [x] to another
    image. *)
Lemma rtc_edge_leaves (duplicates : DuplicateMap) x z :
  rtc (edge duplicates) x z → x ≠ z → ∃ y, edge duplicates x y ∧ y ≠ x.
Proof.
  intros Hxz. induction Hxz as [|x y z Hxy _ IH]; [done|].
  intros Hne. destruct (decide (y = x)) as [->|Hyx]; [by apply IH|eauto].
Qed.

(** Every member of an emitted cluster has a duplicate edge to another
    image. *)
Lemma other_member_edge `{SetIter} (duplicates : DuplicateMap) G x :
  G ∈ group_duplicates duplicates → x ∈ G → ∃ y, edge duplicates x y ∧ y ≠ x.
Proof.
  intros HG Hx.
  destruct (group_duplicates_spec duplicates) as (Hall & _).
  rewrite Forall_forall in Hall. destruct (Hall G HG) as (Hsz & _).
  assert (∃ z, z ∈ G ∧ z ≠ x) as (z & Hz & Hne).
  { destruct (set_choose_or_empty (G ∖ {[x]})) as [[z Hz]|Hempty].
    - exists z. set_solver.
    - assert (G ⊆ {[x]}) as Hsub.
      { intros z Hz. destruct (decide (z = x)) as [->|Hzx]; [set_solver|].
        set_solver. }
      apply subseteq_size in Hsub. rewrite size_singleton in Hsub. lia. }
  apply (rtc_edge_leaves duplicates x z); [|done].
  by apply (group_duplicates_components duplicates G x).
Qed.

Lemma elem_of_in_exactly_one groups G x :
  pairwise_disjoint groups → G ∈ groups → x ∈ G → in_exactly_one groups x.
Proof.
  intros Hpd [i Hi]%list_elem_of_lookup Hx. exists i, G. repeat split; [done..|].
  intros j G' Hj Hx'. destruct (decide (j = i)) as [|Hne]; [done|].
  specialize (Hpd j i G' G Hj Hi Hne). set_solver.
Qed.

(** When every non-empty set of related images that is closed under the
    duplicate edges is the same set [S], and some edge joins two different
    images, the result is the one cluster [S]. *)
Lemma group_duplicates_single `{SetIter} (duplicates : DuplicateMap) S x0 y0 :
  (∀ G : gset string, G ≠ ∅ → (∀ x, x ∈ G → in_relation duplicates x) →
        (∀ v n, v ∈ G → edge duplicates v n → n ∈ G) → G = S) →
  edge duplicates x0 y0 → y0 ≠ x0 →
  group_duplicates duplicates = [S].
Proof.
  intros Huniq He Hne.
  destruct (group_duplicates_spec duplicates) as (Hall & Hpd & Hcov).
  destruct (Hcov x0 y0 He Hne) as (G0 & HG0 & Hx0).
  assert (∀ G, G ∈ group_duplicates duplicates → G = S ∧ G ≠ ∅) as Heq.
  { intros G HG. rewrite Forall_forall in Hall.
    destruct (Hall G HG) as (Hsz & Hrel & Hcl).
    assert (G ≠ ∅) by (intros ->; rewrite size_empty in Hsz; lia).
    split; [by apply Huniq|done]. }
  destruct (group_duplicates duplicates) as [|G1 [|G2 rest]].
  - inversion HG0.
  - f_equal. apply Heq. by left.
  - exfalso. destruct (Heq G1) as [-> HS]; [by left|].
    destruct (Heq G2) as [-> _]; [right; by left|].
    specialize (Hpd 0%nat 1%nat S S eq_refl eq_refl). 
    apply HS. apply set_eq. intros x. split; [|set_solver].
    intros Hx. exfalso. by apply (Hpd ltac:(lia) x).
Qed.

Lemma edge_nil a b : edge [] a b ↔ False.
Proof. unfold edge. split; [|done]. intros (k & l & Hin & _). inversion Hin. Qed.

Lemma in_relation_nil a : in_relation [] a ↔ False.
Proof. unfold in_relation. split; [|done]. intros (k & l & Hin & _). inversion Hin. Qed.

Lemma edge_app (m1 m2 : DuplicateMap) a b :
  edge (m1 ++ m2) a b ↔ edge m1 a b ∨ edge m2 a b.
Proof.
  induction m1 as [|[k l] m1 IH]; simpl.
  - rewrite edge_nil. tauto.
  - rewrite !edge_cons, IH. tauto.
Qed.

Lemma in_relation_app (m1 m2 : DuplicateMap) a :
  in_relation (m1 ++ m2) a ↔ in_relation m1 a ∨ in_relation m2 a.
Proof.
  induction m1 as [|[k l] m1 IH]; simpl.
  - rewrite in_relation_nil. tauto.
  - rewrite !in_relation_cons, IH. tauto.
Qed.

(** No cluster is listed twice. *)
Lemma group_duplicates_NoDup `{SetIter} (duplicates : DuplicateMap) :
  NoDup (group_duplicates duplicates).
Proof.
  destruct (group_duplicates_spec duplicates) as (Hall & Hpd & _).
  apply NoDup_alt. intros i j G Hi Hj.
  destruct (decide (i = j)) as [|Hne]; [done|]. exfalso.
  rewrite Forall_forall in Hall.
  destruct (Hall G) as (Hsz & _); [by eapply list_elem_of_lookup_2|].
  specialize (Hpd i j G G Hi Hj Hne).
  assert (G = ∅) as -> by set_solver. rewrite size_empty in Hsz. lia.
Qed.

(** Which sets are emitted: the components of the images that have an edge
    to another image. *)
Lemma elem_of_group_duplicates `{SetIter} (duplicates : DuplicateMap) G :
  G ∈ group_duplicates duplicates ↔
  ∃ x y, edge duplicates x y ∧ y ≠ x ∧ ∀ z, z ∈ G ↔ rtc (edge duplicates) x z.
Proof.
  split.
  - intros HG. destruct (group_duplicates_spec duplicates) as (Hall & _).
    rewrite Forall_forall in Hall. destruct (Hall G HG) as (Hsz & _).
    assert (G ≠ ∅) as Hne by (intros ->; rewrite size_empty in Hsz; lia).
    apply set_choose_L in Hne as [x Hx].
    destruct (other_member_edge duplicates G x HG Hx) as (y & He & Hyx).
    exists x, y. split; [done|]. split; [done|].
    by apply group_duplicates_components.
  - intros (x & y & He & Hyx & HG).
    destruct (group_duplicates_spec duplicates) as (_ & _ & Hcov).
    destruct (Hcov x y He Hyx) as (G' & HG' & Hx).
    assert (G = G') as ->; [|done]. apply set_eq. intros z.
    by rewrite HG, (group_duplicates_components duplicates G' x HG' Hx z).
Qed.

(** The clusters depend on the map only through its set of (undirected)
    duplicate edges, and on the iteration orders of the sets only for the
    order in which the clusters are listed: two runs, each with its own
    iteration orders, on maps with the same edges list the same clusters. *)
Lemma group_duplicates_perm (I1 I2 : SetIter) (m1 m2 : DuplicateMap) :
  (∀ a b, edge m1 a b ↔ edge m2 a b) →
  @group_duplicates I1 m1 ≡ₚ @group_duplicates I2 m2.
Proof.
  intros Hedge.
  assert (∀ x z, rtc (edge m1) x z ↔ rtc (edge m2) x z) as Hrtc.
  { intros x z. split; apply rtc_subrel; intros a b; by rewrite Hedge. }
  apply NoDup_Permutation; [apply group_duplicates_NoDup..|].
  intros G. rewrite !elem_of_group_duplicates.
  split; intros (x & y & He & Hyx & HG); exists x, y;
    (split; [by apply Hedge|]); (split; [done|]); intros z;
    by rewrite HG, Hrtc.
Qed.

(* ===================================================================== *)
(** * Clustering: partition, symmetry closure, transitivity               *)
(* ===================================================================== *)

(** C1 as the specification states it does not hold: an image listed as
    its own and only duplicate is a key with a non-empty duplicate list, its
    component is the singleton, and [group_duplicates] keeps no group of
    fewer than two images, so the image is in no cluster. *)
Lemma partition_property_fails_on_self_duplicate :
  ¬ @partition_property elements_iter [("a.jpg", ["a.jpg"])].
Proof.
  intros (_ & _ & Hcov).
  destruct (Hcov "a.jpg") as (i & G & Hi & _).
  - exists "a.jpg", ["a.jpg"]. split; [by left|]. split; [done|by left].
  - vm_compute in Hi. destruct i; discriminate Hi.
Qed.

(** C1 (amended): for every DuplicateMap and every iteration order, the
    clusters [group_duplicates] emits are pairwise disjoint, each has at
    least two members, and every image joined by a duplicate edge to an
    image other than itself is in exactly one emitted cluster; the members
    of the clusters are these images and no others. *)
Theorem group_duplicates_partition `{SetIter} (duplicates : DuplicateMap) :
  pairwise_disjoint (group_duplicates duplicates) ∧
  Forall (λ G, (2 ≤ size G)%nat) (group_duplicates duplicates) ∧
  (∀ x y, edge duplicates x y → y ≠ x →
          in_relation duplicates x ∧
          in_exactly_one (group_duplicates duplicates) x) ∧
  (∀ G x, G ∈ group_duplicates duplicates → x ∈ G →
          ∃ y, edge duplicates x y ∧ y ≠ x).
Proof.
  destruct (group_duplicates_spec duplicates) as (Hall & Hpd & Hcov).
  split; [done|]. split; [|split].
  - eapply Forall_impl; [exact Hall|]. cbv beta. intros G (? & _). lia.
  - intros x y He Hne. split; [by apply edge_in_relation in He as [? _]|].
    destruct (Hcov x y He Hne) as (G & HG & Hx).
    by eapply elem_of_in_exactly_one.
  - intros G x HG Hx. rewrite Forall_forall in Hall.
    destruct (Hall G HG) as (Hsz & _).
    by apply (other_member_edge duplicates G x HG Hx).
Qed.

(** The amended C1 at the pair map: both images are in exactly one
    cluster. *)
Lemma group_duplicates_partition_witness :
  edge [("a.jpg", ["b.jpg"])] "a.jpg" "b.jpg" ∧
  in_exactly_one (@group_duplicates elements_iter [("a.jpg", ["b.jpg"])]) "a.jpg".
Proof.
  assert (edge [("a.jpg", ["b.jpg"])] "a.jpg" "b.jpg") as He.
  { exists "a.jpg", ["b.jpg"]. split; [by left|]. left. split; [done|by left]. }
  split; [exact He|].
  exact (proj2 (proj1 (proj2 (proj2 (@group_duplicates_partition elements_iter
                                       [("a.jpg", ["b.jpg"])])))
                  "a.jpg" "b.jpg" He ltac:(discriminate))).
Defined.

Lemma pair_cluster_unique (A B : string) (m : DuplicateMap) :
  (∀ a b, edge m a b ↔ (a = A ∧ b = B) ∨ (a = B ∧ b = A)) →
  ∀ G : gset string, G ≠ ∅ → (∀ x, x ∈ G → in_relation m x) →
    (∀ v n, v ∈ G → edge m v n → n ∈ G) → G = {[A; B]}.
Proof.
  intros Hedge G Hne Hrel Hcl.
  assert (∀ x, in_relation m x → x = A ∨ x = B) as Hnodes.
  { intros x (k & l & Hin & Hl & Hx). destruct l as [|d l]; [done|].
    assert (edge m k d) as He by (exists k, (d :: l); split; [done|left; split; [done|by left]]).
    destruct Hx as [->|Hx].
    - apply Hedge in He. naive_solver.
    - assert (edge m k x) as He' by (exists k, (d :: l); auto).
      apply Hedge in He'. naive_solver. }
  assert (A ∈ G ∧ B ∈ G) as [HA HB].
  { apply set_choose_L in Hne as [x Hx].
    destruct (Hnodes x (Hrel x Hx)) as [->| ->].
    - split; [done|]. apply (Hcl A B Hx). apply Hedge. by left.
    - split; [|done]. apply (Hcl B A Hx). apply Hedge. by right. }
  apply set_eq. intros x. split.
  - intros Hx. destruct (Hnodes x (Hrel x Hx)) as [->| ->]; set_solver.
  - intros [->%elem_of_singleton| ->%elem_of_singleton]%elem_of_union; done.
Qed.

Lemma edge_pair_one (A B a b : string) :
  edge [(A, [B])] a b ↔ (a = A ∧ b = B) ∨ (a = B ∧ b = A).
Proof. rewrite edge_cons, edge_nil. set_solver. Qed.

Lemma edge_pair_both (A B a b : string) :
  edge [(A, [B]); (B, [A])] a b ↔ (a = A ∧ b = B) ∨ (a = B ∧ b = A).
Proof. rewrite !edge_cons, edge_nil. set_solver. Qed.

(** C2: for distinct [A] and [B], the maps [{A: [B]}] and
    [{A: [B], B: [A]}] give the same clusters, namely the one cluster
    [{A, B}], whatever the iteration orders of the two runs; and for any map
    [m] in which [A] and [B] are already joined by a duplicate edge, a map
    [m'] that has the edges of [m] and the reverse direction of that edge
    (the entry [B: [A]] added, or [A] added to the list of [B]) gives the
    clusters of [m], again whatever the iteration orders of the two runs
    (which can list the same clusters in different orders). *)
Theorem group_duplicates_symmetry_closure (I1 I2 : SetIter) (A B : string) :
  A ≠ B →
  @group_duplicates I1 [(A, [B])] = @group_duplicates I2 [(A, [B]); (B, [A])] ∧
  @group_duplicates I1 [(A, [B])] = [{[A; B]}] ∧
  ∀ m m' : DuplicateMap, edge m A B →
    (∀ a b, edge m' a b ↔ edge m a b ∨ edge [(B, [A])] a b) →
    @group_duplicates I2 m' ≡ₚ @group_duplicates I1 m.
Proof.
  intros Hne.
  assert (@group_duplicates I1 [(A, [B])] = [{[A; B]}]) as H1.
  { apply (group_duplicates_single _ _ A B).
    - apply pair_cluster_unique. apply edge_pair_one.
    - apply edge_pair_one. by left.
    - done. }
  assert (@group_duplicates I2 [(A, [B]); (B, [A])] = [{[A; B]}]) as H2.
  { apply (group_duplicates_single _ _ A B).
    - apply pair_cluster_unique. apply edge_pair_both.
    - apply edge_pair_both. by left.
    - done. }
  split; [by rewrite H1, H2|]. split; [done|].
  intros m m' He Hm'. apply group_duplicates_perm. intros a b.
  rewrite Hm', edge_pair_one. split; [|by left].
  intros [?|[[-> ->]|[-> ->]]]; [done|by apply edge_sym|done].
Qed.

Lemma group_duplicates_symmetry_closure_witness :
  @group_duplicates elements_iter [("a.jpg", ["b.jpg"])] =
  @group_duplicates elements_iter [("a.jpg", ["b.jpg"]); ("b.jpg", ["a.jpg"])] ∧
  @group_duplicates elements_iter [("a.jpg", ["b.jpg"])] = [{["a.jpg"; "b.jpg"]}].
Proof.
  pose proof (group_duplicates_symmetry_closure elements_iter elements_iter
                "a.jpg" "b.jpg" ltac:(discriminate)) as (H1 & H2 & _).
  exact (conj H1 H2).
Defined.

(** C3: for three distinct images, the chain [{A: [B], B: [C], C: []}]
    gives exactly one cluster, [{A, B, C}], whatever the iteration
    order. *)
Theorem group_duplicates_transitive `{SetIter} (A B C : string) :
  A ≠ B → B ≠ C → A ≠ C →
  group_duplicates [(A, [B]); (B, [C]); (C, [])] = [{[A; B; C]}].
Proof.
  intros HAB HBC HAC.
  set (m := [(A, [B]); (B, [C]); (C, [])]).
  assert (∀ a b, edge m a b ↔
            (a = A ∧ b = B) ∨ (a = B ∧ b = A) ∨ (a = B ∧ b = C) ∨ (a = C ∧ b = B))
    as Hedge.
  { intros a b. unfold m. rewrite !edge_cons, edge_nil. set_solver. }
  assert (∀ x, in_relation m x ↔ x = A ∨ x = B ∨ x = C) as Hnodes.
  { intros x. unfold m. rewrite !in_relation_cons, in_relation_nil. set_solver. }
  apply (group_duplicates_single _ _ A B); [|apply Hedge; by left|done].
  intros G Hne Hrel Hcl.
  assert (A ∈ G ∧ B ∈ G ∧ C ∈ G) as (HA & HB & HC).
  { apply set_choose_L in Hne as [x Hx].
    assert (∀ a b, a ∈ G → edge m a b → b ∈ G) as Hstep by (intros; by eapply Hcl).
    destruct (proj1 (Hnodes x) (Hrel x Hx)) as [->|[->| ->]].
    - assert (B ∈ G) by (apply (Hstep A); [done|apply Hedge; tauto]).
      assert (C ∈ G) by (apply (Hstep B); [done|apply Hedge; tauto]). done.
    - assert (A ∈ G) by (apply (Hstep B); [done|apply Hedge; tauto]).
      assert (C ∈ G) by (apply (Hstep B); [done|apply Hedge; tauto]). done.
    - assert (B ∈ G) by (apply (Hstep C); [done|apply Hedge; tauto]).
      assert (A ∈ G) by (apply (Hstep B); [done|apply Hedge; tauto]). done. }
  apply set_eq. intros x. split.
  - intros Hx. destruct (proj1 (Hnodes x) (Hrel x Hx)) as [->|[->| ->]]; set_solver.
  - intros Hx. assert (x = A ∨ x = B ∨ x = C) as [->|[->| ->]] by set_solver; done.
Qed.

Lemma group_duplicates_transitive_witness :
  @group_duplicates elements_iter
    [("a.jpg", ["b.jpg"]); ("b.jpg", ["c.jpg"]); ("c.jpg", [])] =
  [{["a.jpg"; "b.jpg"; "c.jpg"]}].
Proof.
  exact (@group_duplicates_transitive elements_iter "a.jpg" "b.jpg" "c.jpg"
           ltac:(discriminate) ltac:(discriminate) ltac:(discriminate)).
Defined.

(* ===================================================================== *)
(** * Representative selection                                            *)
(* ===================================================================== *)

Lemma getsize_nonneg env w p sz : getsize env w p = Some sz → 0 ≤ sz.
Proof.
  unfold getsize. destruct (String.eqb p ""); [done|].
  destruct (files w !! p); [|done]. destruct (stat_fault _ _); [done|].
  intros [= <-]. lia.
Qed.

Lemma getsize_empty_path env w : getsize env w "" = None.
Proof. done. Qed.

Lemma select_step_inv env w l st image_path :
  select_inv env w l st →
  select_inv env w (l ++ [image_path]) (select_step env w st image_path).
Proof.
  destruct st as [best_image best_size]. intros (Hpos & Hmax & Hbest).
  unfold select_step, select_inv in *. cbn [fst snd] in *.
  destruct (getsize env w image_path) as [file_size|] eqn:Hsz.
  - destruct (Z.ltb_spec best_size file_size) as [Hlt|Hge]; cbn [fst snd].
    + split; [lia|]. split.
      * intros p sz [Hp | ->%list_elem_of_singleton]%elem_of_app Hp'.
        -- specialize (Hmax p sz Hp Hp'). lia.
        -- rewrite Hsz in Hp'. injection Hp' as <-. lia.
      * split; [apply elem_of_app; right; by left|]. split; [done|lia].
    + split; [done|]. split.
      * intros p sz [Hp | ->%list_elem_of_singleton]%elem_of_app Hp'.
        -- by apply (Hmax p sz).
        -- rewrite Hsz in Hp'. injection Hp' as <-. lia.
      * destruct best_image as [best|]; [|done].
        destruct Hbest as (? & ? & ?). split; [apply elem_of_app; by left|done].
  - cbn [fst snd]. split; [done|]. split.
    + intros p sz [Hp | ->%list_elem_of_singleton]%elem_of_app Hp'.
      * by apply (Hmax p sz).
      * by rewrite Hsz in Hp'.
    + destruct best_image as [best|]; [|done].
      destruct Hbest as (? & ? & ?). split; [apply elem_of_app; by left|done].
Qed.

Lemma select_loop_inv env w l :
  select_inv env w l (foldl (select_step env w) (None, 0) l).
Proof.
  induction l as [|x l IH] using rev_ind.
  - unfold select_inv. simpl. split; [lia|]. split; [|done]. intros p sz Hp. inversion Hp.
  - rewrite foldl_app. cbn [foldl]. by apply select_step_inv.
Qed.

(** On a non-empty group the selector returns a member and leaves the
    world as it is. *)
Lemma select_representative_member `{SetIter} env (group : gset string) w :
  group ≠ ∅ →
  ∃ r, select_representative env group w = (Return r, w) ∧ r ∈ group.
Proof.
  intros Hne. unfold select_representative.
  pose proof (select_loop_inv env w (iter_set group)) as (_ & _ & Hbest).
  destruct (foldl (select_step env w) (None, 0) (iter_set group))
    as [best_image best_size]. cbn [fst snd] in Hbest.
  assert (∃ first rest, iter_set group = first :: rest) as (first & rest & Hiter).
  { destruct (iter_set group) as [|first rest] eqn:Hiter; [|by eauto].
    exfalso. apply set_choose_L in Hne as [x Hx].
    apply elem_of_iter_set in Hx. rewrite Hiter in Hx. inversion Hx. }
  assert (first ∈ group) as Hfirst.
  { apply elem_of_iter_set. rewrite Hiter. by left. }
  destruct best_image as [best|]; cbn [truthy].
  - destruct Hbest as (Hin & _ & _). apply elem_of_iter_set in Hin.
    destruct (String.eqb best ""); rewrite ?Hiter; eauto.
  - rewrite Hiter. eauto.
Qed.

(** When some member has a readable size above zero, the selector returns
    a member of largest readable size. *)
Lemma select_representative_largest `{SetIter} env (group : gset string) w p sz :
  p ∈ group → getsize env w p = Some sz → 0 < sz →
  ∃ r best_size,
    select_representative env group w = (Return r, w) ∧ r ∈ group ∧
    getsize env w r = Some best_size ∧
    ∀ q sz', q ∈ group → getsize env w q = Some sz' → sz' ≤ best_size.
Proof.
  intros Hp Hsz Hpos. unfold select_representative.
  pose proof (select_loop_inv env w (iter_set group)) as (_ & Hmax & Hbest).
  destruct (foldl (select_step env w) (None, 0) (iter_set group))
    as [best_image best_size]. cbn [fst snd] in *.
  assert (sz ≤ best_size) as Hle.
  { apply (Hmax p); [by apply elem_of_iter_set|done]. }
  destruct best_image as [best|]; [|lia].
  destruct Hbest as (Hin & Hbsz & _). cbn [truthy].
  destruct (String.eqb_spec best "") as [->|_]; [by rewrite getsize_empty_path in Hbsz|].
  exists best, best_size. split; [done|]. split; [by apply elem_of_iter_set|].
  split; [done|]. intros q sz' Hq. apply Hmax. by apply elem_of_iter_set.
Qed.

Lemma select_loop_unreadable env w l :
  (∀ q, q ∈ l → getsize env w q = None) →
  foldl (select_step env w) (None, 0) l = (None, 0).
Proof.
  induction l as [|x l IH] using rev_ind; intros Hl; [done|].
  rewrite foldl_app, IH.
  - cbn [foldl]. unfold select_step.
    rewrite Hl; [done|]. apply elem_of_app. right. by left.
  - intros q Hq. apply Hl. apply elem_of_app. by left.
Qed.

(** When no member has a readable size, the selector returns the first
    member in iteration order. *)
Lemma select_representative_unreadable `{SetIter} env (group : gset string) w first rest :
  iter_set group = first :: rest →
  (∀ q, q ∈ group → getsize env w q = None) →
  select_representative env group w = (Return first, w).
Proof.
  intros Hiter Hnone. unfold select_representative.
  rewrite select_loop_unreadable.
  - cbn [truthy]. by rewrite Hiter.
  - intros q Hq. apply Hnone. by apply elem_of_iter_set.
Qed.

(* ===================================================================== *)
(** * The deletion plan                                                   *)
(* ===================================================================== *)

Lemma size_remove_member (G : gset string) r :
  r ∈ G → size G = S (size (G ∖ {[r]})).
Proof.
  intros Hr. assert (G = {[r]} ∪ G ∖ {[r]}) as HG.
  { apply set_eq. intros y. destruct (decide (y = r)); set_solver. }
  rewrite HG at 1. rewrite size_union by set_solver. by rewrite size_singleton.
Qed.

Lemma plan_group_spec `{SetIter} env i info td tr (G : gset string) w :
  G ≠ ∅ →
  ∃ d, plan_group env (i, info, td, tr) G w =
         (Return (i + 1, info ++ [d], td + set_len G, tr + (set_len G - 1)), w) ∧
       group_id d = i ∧ decision_of G d.
Proof.
  intros Hne. unfold plan_group, bind.
  destruct (select_representative_member env G w Hne) as (r & -> & Hr).
  pose proof (size_remove_member G r Hr) as Hsz.
  exists {| group_id := i; total_count := set_len G; representative := r;
            duplicates := iter_set (G ∖ {[r]});
            remove_count := set_len (G ∖ {[r]}) |}.
  split; [|split; [reflexivity|]].
  - unfold ret, set_len. tuple_eq.
  - unfold decision_of. cbn [representative duplicates total_count remove_count].
    split; [done|]. split.
    { apply set_eq. intros x. by rewrite elem_of_list_to_set, elem_of_iter_set. }
    split; [rewrite elem_of_iter_set; set_solver|].
    split; [apply NoDup_iter_set|].
    split; [rewrite length_iter_set; lia|].
    split; [done|]. unfold set_len. lia.
Qed.

Lemma plan_fold_spec `{SetIter} env (groups : list (gset string)) i info td tr w :
  Forall (λ G, G ≠ ∅) groups →
  ∃ ds td',
    foldM (plan_group env) (i, info, td, tr) groups w =
      (Return (i + len groups, info ++ ds, td + td', tr + (td' - len groups)), w) ∧
    td' = sum_sizes groups ∧
    Forall2 decision_of groups ds ∧
    (∀ k d, ds !! k = Some d → group_id d = i + Z.of_nat k).
Proof.
  intros Hall. revert i info td tr.
  induction Hall as [|G groups HG Hall IH]; intros i info td tr.
  - exists [], 0. cbn [foldM]. unfold ret, len. cbn [length].
    rewrite app_nil_r, !Z.add_0_r. split; [done|]. split; [done|]. split; [constructor|].
    intros k d Hk. by rewrite lookup_nil in Hk.
  - cbn [foldM]. unfold bind at 1.
    destruct (plan_group_spec env i info td tr G w HG) as (d & -> & Hid & Hd).
    destruct (IH (i + 1) (info ++ [d]) (td + set_len G) (tr + (set_len G - 1)))
      as (ds & td' & -> & Hsum & Hds & Hids).
    exists (d :: ds), (set_len G + td'). split; [|split; [|split]].
    + unfold len. cbn [length]. rewrite <-app_assoc. cbn [app]. tuple_eq.
    + cbn. by rewrite Hsum.
    + by constructor.
    + intros [|k] d' Hk; cbn in Hk.
      * injection Hk as <-. rewrite Hid. lia.
      * rewrite (Hids k d' Hk). lia.
Qed.

Lemma plan_groups_spec `{SetIter} env (groups : list (gset string)) w :
  Forall (λ G, G ≠ ∅) groups →
  ∃ group_info total_duplicates total_to_remove,
    plan_groups env groups w =
      (Return (group_info, total_duplicates, total_to_remove), w) ∧
    Forall2 decision_of groups group_info ∧
    (∀ k d, group_info !! k = Some d → group_id d = 1 + Z.of_nat k) ∧
    total_duplicates = sum_sizes groups ∧
    total_to_remove = sum_sizes groups - len groups.
Proof.
  intros Hall. unfold plan_groups, bind.
  destruct (plan_fold_spec env groups 1 [] 0 0 w Hall)
    as (ds & td' & -> & Hsum & Hds & Hids).
  exists ds, td', (td' - len groups). cbn [app]. rewrite !Z.add_0_l.
  split; [done|]. split; [done|]. split; [done|]. split; [done|]. by rewrite Hsum.
Qed.

Lemma group_duplicates_nonempty `{SetIter} (duplicates : DuplicateMap) :
  Forall (λ G, G ≠ ∅) (group_duplicates duplicates).
Proof.
  destruct (group_duplicates_spec duplicates) as (Hall & _).
  eapply Forall_impl; [exact Hall|]. cbv beta. intros G (Hsz & _) ->.
  rewrite size_empty in Hsz. lia.
Qed.

(** C5: for every list of non-empty clusters, the planner returns (it does
    not raise, and it leaves the file system as it is), and each entry of
    its plan has its representative in the cluster it was built from, has
    as duplicates exactly the cluster without the representative, so that
    the representative is not among them, and counts one element less than
    the cluster. *)
Theorem plan_groups_removal_complete `{SetIter} env (groups : list (gset string)) w :
  Forall (λ G, G ≠ ∅) groups →
  ∃ group_info total_duplicates total_to_remove,
    plan_groups env groups w =
      (Return (group_info, total_duplicates, total_to_remove), w) ∧
    Forall2 (λ G d,
      representative d ∈ G ∧
      (list_to_set (duplicates d) : gset string) = G ∖ {[representative d]} ∧
      (representative d ∉ duplicates d) ∧
      NoDup (duplicates d) ∧
      (length (duplicates d) = size G - 1)%nat ∧
      total_count d = set_len G ∧
      remove_count d = set_len G - 1) groups group_info.
Proof.
  intros Hall.
  destruct (plan_groups_spec env groups w Hall)
    as (group_info & td & tr & Hplan & Hds & _).
  exists group_info, td, tr. split; [done|]. exact Hds.
Qed.

(* ===================================================================== *)
(** * The deletion run                                                    *)
(* ===================================================================== *)

Lemma foldM_app {A B} (f : B → A → M B) b (l1 l2 : list A) w :
  foldM f b (l1 ++ l2) w =
  match foldM f b l1 w with
  | (Return b', w') => foldM f b' l2 w'
  | (Raise e, w') => (Raise e, w')
  end.
Proof.
  revert b w. induction l1 as [|a l1 IH]; intros b w; [done|].
  cbn [app foldM]. unfold bind. destruct (f b a w) as [[b'|e] w']; [apply IH|done].
Qed.

Lemma delete_groups_flat env backup_dir group_info w :
  delete_groups env backup_dir group_info w =
  foldM (delete_image env backup_dir) 0 (paths_of group_info) w.
Proof.
  unfold delete_groups, paths_of. generalize 0.
  revert w. induction group_info as [|gd group_info IH]; intros w cnt; [done|].
  cbn [foldM fmap list_fmap concat]. rewrite foldM_app. unfold bind.
  destruct (foldM _ cnt (duplicates gd) w) as [[cnt'|e] w']; [apply IH|done].
Qed.

(** One turn of the deletion loop. *)
Lemma delete_image_spec env backup_dir cnt p w :
  ∃ cnt' w',
    delete_image env backup_dir cnt p w = (Return cnt', w') ∧
    dirs w' = dirs w ∧
    (∀ q, q ≠ p → q ∈ dom (files w) → q ∈ dom (files w')) ∧
    (∀ q, q ∈ dom (files w') →
          q ∈ dom (files w) ∨ backup_target w backup_dir p = Some q) ∧
    ((cnt' = cnt + 1 ∧ p ∈ dom (files w) ∧ (p ∉ dom (files w')) ∧
      stdout w' = stdout w ∧
      ∀ dst, backup_target w backup_dir p = Some dst →
             files w' !! dst = files w !! p)
     ∨
     (cnt' = cnt ∧ (p ∈ dom (files w) → p ∈ dom (files w')) ∧
      ∃ e, stdout w' = stdout w ++ [DeleteFailed (TQDM_AVAILABLE env) (basename p) e])) ∧
    (p ∈ dom (files w) → remove_fault (faults env) p = false →
     (∀ dst, backup_target w backup_dir p = Some dst →
             dst ≠ p ∧ copy_fault (faults env) p dst = false) →
     p ∉ dom (files w')) ∧
    (∀ dst, backup_target w backup_dir p = Some dst →
            copy_fault (faults env) p dst = true →
            files w' = files w ∧ cnt' = cnt).
Proof.
  unfold backup_target, backup_target_in, delete_image, try_except, bind, ret,
    copy2, os_remove, print, set_files.
  destruct (truthy backup_dir) as [dir|]; cbn.
  - set (dst := if bool_decide (path_join dir (basename p) ∈ dirs w)
                then path_join (path_join dir (basename p)) (basename p)
                else path_join dir (basename p)).
    destruct (files w !! p) as [content|] eqn:Hp; cbn.
    + destruct (String.eqb_spec p dst) as [Heq|Hne]; cbn.
      { eexists _, _. split; [done|]. cbn. split; [done|]. split; [done|].
        split; [by left|]. split; [|split].
        - right. split; [done|]. split; [done|]. by eexists.
        - intros _ _ Hdst. destruct (Hdst dst eq_refl) as [Hd _]. by destruct Hd.
        - done. }
      destruct (copy_fault (faults env) p dst) eqn:Hcf; cbn.
      { eexists _, _. split; [done|]. cbn. split; [done|]. split; [done|].
        split; [by left|]. split; [|split].
        - right. split; [done|]. split; [done|]. by eexists.
        - intros _ _ Hdst. destruct (Hdst dst eq_refl) as [_ Hd]. congruence.
        - done. }
      rewrite lookup_insert_ne by done. rewrite Hp.
      destruct (remove_fault (faults env) p) eqn:Hrf; cbn.
      { eexists _, _. split; [done|]. cbn. split; [done|]. split.
        { intros q _ Hq. rewrite dom_insert. set_solver. }
        split.
        { intros q. rewrite dom_insert. intros [->%elem_of_singleton|Hq]%elem_of_union; auto. }
        split; [|split].
        - right. split; [done|]. split; [|by eexists].
          intros Hq. rewrite dom_insert. set_solver.
        - intros _ Hrf'. congruence.
        - intros dst' [= <-] Hcf'. congruence. }
      eexists _, _. split; [done|]. cbn. split; [done|]. split.
      { intros q Hqp Hq. rewrite dom_delete, dom_insert. set_solver. }
      split.
      { intros q. rewrite dom_delete, dom_insert.
        intros [[->%elem_of_singleton|Hq]%elem_of_union _]%elem_of_difference; auto. }
      split; [|split].
      * left. split; [done|]. split; [by apply elem_of_dom|].
        split; [rewrite dom_delete; set_solver|]. split; [done|].
        intros dst' [= <-]. rewrite lookup_delete_ne by done.
        by rewrite lookup_insert_eq.
      * intros _ _ _. rewrite dom_delete. set_solver.
      * intros dst' [= <-] Hcf'. congruence.
    + eexists _, _. split; [done|]. cbn. split; [done|]. split; [done|].
      split; [by left|]. split; [|split].
      * right. split; [done|]. split; [done|]. by eexists.
      * intros Hin. apply elem_of_dom in Hin as [? Hin]. congruence.
      * done.
  - destruct (files w !! p) as [content|] eqn:Hp; cbn.
    + destruct (remove_fault (faults env) p) eqn:Hrf; cbn.
      { eexists _, _. split; [done|]. cbn. split; [done|]. split; [done|].
        split; [by left|]. split; [|split].
        - right. split; [done|]. split; [done|]. by eexists.
        - intros _ Hrf'. congruence.
        - done. }
      eexists _, _. split; [done|]. cbn. split; [done|]. split.
      { intros q Hqp Hq. rewrite dom_delete. set_solver. }
      split.
      { intros q. rewrite dom_delete. set_solver. }
      split; [|split].
      * left. split; [done|]. split; [by apply elem_of_dom|].
        split; [rewrite dom_delete; set_solver|]. done.
      * intros _ _ _. rewrite dom_delete. set_solver.
      * done.
    + eexists _, _. split; [done|]. cbn. split; [done|]. split; [done|].
      split; [by left|]. split; [|split].
      * right. split; [done|]. split; [done|]. by eexists.
      * intros Hin. apply elem_of_dom in Hin as [? Hin]. congruence.
      * done.
Qed.

Lemma delete_image_remove_refused env backup_dir cnt p w cnt' w' :
  delete_image env backup_dir cnt p w = (Return cnt', w') →
  remove_fault (faults env) p = true → cnt' = cnt.
Proof.
  unfold delete_image, try_except, bind, ret, copy2, os_remove, print, set_files.
  intros Hrun Hrf. rewrite Hrf in Hrun.
  repeat (case_match; simplify_eq/=); done.
Qed.

Lemma delete_image_frame env backup_dir cnt p w cnt' w' q :
  delete_image env backup_dir cnt p w = (Return cnt', w') →
  q ≠ p → backup_target w backup_dir p ≠ Some q →
  files w' !! q = files w !! q.
Proof.
  unfold backup_target, backup_target_in, delete_image, try_except, bind, ret,
    copy2, os_remove, print, set_files.
  intros Hrun Hqp Ht.
  repeat (case_match; simplify_eq/=);
    rewrite ?lookup_delete_ne, ?lookup_insert_ne by congruence; done.
Qed.

Section deletion_loop.
Variable env : Env.
Variable backup_dir : option string.
Variable D : gset string.

Abbreviation delete_loop := (foldM (delete_image env backup_dir)).
Abbreviation target := (backup_target_in D backup_dir).

(** The loop never raises; it leaves the directories as they are and only
    adds to the terminal output. *)
Lemma delete_loop_total l cnt w :
  ∃ cnt' w', delete_loop cnt l w = (Return cnt', w') ∧
    dirs w' = dirs w ∧ cnt ≤ cnt' ≤ cnt + len l ∧
    (∀ ev, ev ∈ stdout w → ev ∈ stdout w') ∧
    ∃ failures, stdout w' = stdout w ++ failures ∧
                (cnt' - cnt) + len failures = len l.
Proof.
  revert cnt w. induction l as [|p l IH]; intros cnt w.
  - exists cnt, w. unfold len. cbn. split; [done|]. split; [done|]. split; [lia|].
    split; [done|]. exists []. rewrite app_nil_r. cbn. split; [done|lia].
  - cbn [foldM]. unfold bind.
    destruct (delete_image_spec env backup_dir cnt p w)
      as (cnt1 & w1 & -> & Hd1 & _ & _ & Hcase & _).
    destruct (IH cnt1 w1) as (cnt' & w' & -> & Hd & Hcnt & Hout & evs & Hevs & Htally).
    exists cnt', w'. split; [done|]. split; [congruence|].
    unfold len in *. cbn [length]. split; [|split].
    + destruct Hcase as [(-> & _)|(-> & _)]; lia.
    + intros ev Hev. apply Hout.
      destruct Hcase as [(_ & _ & _ & -> & _)|(_ & _ & e & ->)]; [done|].
      apply elem_of_app. by left.
    + destruct Hcase as [(-> & _ & _ & Hsame & _)|(-> & _ & e & Hone)].
      * exists evs. rewrite Hevs, Hsame. split; [done|lia].
      * exists (DeleteFailed (TQDM_AVAILABLE env) (basename p) e :: evs).
        rewrite Hevs, Hone, <-app_assoc. cbn [app length]. split; [done|lia].
Qed.

(** A file that is not on the list is still there after the loop. *)
Lemma delete_loop_keeps l cnt w cnt' w' Y :
  delete_loop cnt l w = (Return cnt', w') →
  Y ∈ dom (files w) → Y ∉ l → Y ∈ dom (files w').
Proof.
  revert cnt w. induction l as [|p l IH]; intros cnt w Hrun HY Hnl.
  - cbn in Hrun. by injection Hrun as _ <-.
  - cbn [foldM] in Hrun. unfold bind in Hrun.
    destruct (delete_image_spec env backup_dir cnt p w)
      as (cnt1 & w1 & Hstep & _ & Hkeep & _).
    rewrite Hstep in Hrun. apply (IH cnt1 w1 Hrun); [|set_solver].
    apply Hkeep; [set_solver|done].
Qed.

(** A path that holds no file and is no backup destination of the list
    holds no file after the loop. *)
Lemma delete_loop_stays_absent l cnt w cnt' w' Y :
  dirs w = D →
  delete_loop cnt l w = (Return cnt', w') →
  Y ∉ dom (files w) → (∀ p, p ∈ l → target p ≠ Some Y) → Y ∉ dom (files w').
Proof.
  revert cnt w. induction l as [|p l IH]; intros cnt w HD Hrun HY Htgt.
  - cbn in Hrun. by injection Hrun as _ <-.
  - cbn [foldM] in Hrun. unfold bind in Hrun.
    destruct (delete_image_spec env backup_dir cnt p w)
      as (cnt1 & w1 & Hstep & Hd1 & _ & Hnew & _).
    rewrite Hstep in Hrun. apply (IH cnt1 w1); [congruence|done| |].
    + intros Hin. destruct (Hnew Y Hin) as [?|Ht]; [done|].
      unfold backup_target in Ht. rewrite HD in Ht.
      apply (Htgt p); [by left|done].
    + intros q Hq. apply Htgt. by right.
Qed.

(** A file on the list whose own copy and removal are not refused is gone
    after the loop, whatever happens to the other files, provided no
    backup destination is itself on the list. *)
Lemma delete_loop_removes l cnt w cnt' w' Y :
  dirs w = D →
  delete_loop cnt l w = (Return cnt', w') →
  Y ∈ l → Y ∈ dom (files w) →
  remove_fault (faults env) Y = false →
  (∀ dst, target Y = Some dst → copy_fault (faults env) Y dst = false) →
  (∀ p dst, p ∈ l → target p = Some dst → dst ∉ l) →
  Y ∉ dom (files w').
Proof.
  revert cnt w. induction l as [|p l IH]; intros cnt w HD Hrun HYl HY Hrf Hcf Hal.
  - inversion HYl.
  - cbn [foldM] in Hrun. unfold bind in Hrun.
    destruct (delete_image_spec env backup_dir cnt p w)
      as (cnt1 & w1 & Hstep & Hd1 & Hkeep & _ & _ & Hrem & _).
    rewrite Hstep in Hrun.
    assert (∀ q, q ∈ l → target q ≠ Some Y) as Hnot.
    { intros q Hq Ht. apply (Hal q Y); [by right|done|done]. }
    destruct (decide (Y = p)) as [->|Hne].
    + apply (delete_loop_stays_absent l cnt1 w1 cnt' w'); [congruence|done| |done].
      apply Hrem; [done|done|].
      intros dst Ht. unfold backup_target in Ht. rewrite HD in Ht.
      split; [|by apply Hcf]. intros ->. apply (Hal p p); [by left|done|by left].
    + apply elem_of_cons in HYl as [?|HYl]; [done|].
      destruct (decide (Y ∈ dom (files w1))) as [HY1|HY1].
      * apply (IH cnt1 w1); try done; [congruence|].
        intros q dst Hq Ht Hdst. apply (Hal q dst); [by right|done|by right].
      * by apply (delete_loop_stays_absent l cnt1 w1 cnt' w'); [congruence|..].
Qed.

(** A file whose backup copy is refused is still there after the loop, and
    a failure is reported for it if it is on the list. *)
Lemma delete_loop_backup_refused l cnt w cnt' w' X dst :
  dirs w = D →
  delete_loop cnt l w = (Return cnt', w') →
  X ∈ dom (files w) → target X = Some dst →
  copy_fault (faults env) X dst = true →
  X ∈ dom (files w') ∧ (X ∈ l → delete_failed env X w').
Proof.
  revert cnt w. induction l as [|p l IH]; intros cnt w HD Hrun HX Ht Hcf.
  - cbn in Hrun. injection Hrun as _ <-. split; [done|]. intros Hin. inversion Hin.
  - cbn [foldM] in Hrun. unfold bind in Hrun.
    destruct (delete_image_spec env backup_dir cnt p w)
      as (cnt1 & w1 & Hstep & Hd1 & Hkeep & _ & Hcase & _ & Hfail).
    rewrite Hstep in Hrun.
    assert (X ∈ dom (files w1)) as HX1.
    { destruct (decide (X = p)) as [->|Hne]; [|by apply Hkeep].
      destruct (Hfail dst) as [-> _]; [|done..].
      unfold backup_target. by rewrite HD. }
    destruct (IH cnt1 w1) as [Hfin Hlog]; [congruence|done..|].
    split; [done|]. intros [->|HXl]%elem_of_cons; [|by apply Hlog].
    destruct (Hfail dst) as [_ Hcnt]; [by unfold backup_target; rewrite HD|done|].
    destruct Hcase as [(Hc & _)|(_ & _ & e & Hout)]; [lia|].
    exists e.
    destruct (delete_loop_total l cnt1 w1) as (? & ? & Hrun' & _ & _ & Hmono & _).
    rewrite Hrun in Hrun'. injection Hrun' as _ <-.
    apply Hmono. rewrite Hout. apply elem_of_app. right. by left.
Qed.
(** A file whose removal is refused is still there after the loop, and a
    failure is reported for it if it is on the list. *)
Lemma delete_loop_remove_refused l cnt w cnt' w' X :
  delete_loop cnt l w = (Return cnt', w') →
  X ∈ dom (files w) → remove_fault (faults env) X = true →
  X ∈ dom (files w') ∧ (X ∈ l → delete_failed env X w').
Proof.
  revert cnt w. induction l as [|p l IH]; intros cnt w Hrun HX Hrf.
  - cbn in Hrun. injection Hrun as _ <-. split; [done|]. intros Hin. inversion Hin.
  - cbn [foldM] in Hrun. unfold bind in Hrun.
    destruct (delete_image_spec env backup_dir cnt p w)
      as (cnt1 & w1 & Hstep & _ & Hkeep & _ & Hcase & _).
    rewrite Hstep in Hrun.
    assert (X = p → cnt1 = cnt) as Hcnt.
    { intros ->. by eapply delete_image_remove_refused. }
    assert (X ∈ dom (files w1)) as HX1.
    { destruct (decide (X = p)) as [->|Hne]; [|by apply Hkeep].
      destruct Hcase as [(Hc & _)|(_ & Hstay & _)]; [specialize (Hcnt eq_refl); lia|auto]. }
    destruct (IH cnt1 w1) as [Hfin Hlog]; [done..|].
    split; [done|]. intros [->|HXl]%elem_of_cons; [|by apply Hlog].
    destruct Hcase as [(Hc & _)|(_ & _ & e & Hout)]; [specialize (Hcnt eq_refl); lia|].
    exists e.
    destruct (delete_loop_total l cnt1 w1) as (? & ? & Hrun' & _ & _ & Hmono & _).
    rewrite Hrun in Hrun'. injection Hrun' as _ <-.
    apply Hmono. rewrite Hout. apply elem_of_app. right. by left.
Qed.
(** The loop leaves alone every path that is neither on the list nor a
    backup destination of the list. *)
Lemma delete_loop_frame l cnt w cnt' w' q :
  dirs w = D →
  delete_loop cnt l w = (Return cnt', w') →
  q ∉ l → (∀ p, p ∈ l → target p ≠ Some q) →
  files w' !! q = files w !! q.
Proof.
  revert cnt w. induction l as [|p l IH]; intros cnt w HD Hrun Hql Htgt.
  - cbn in Hrun. by injection Hrun as _ <-.
  - cbn [foldM] in Hrun. unfold bind in Hrun.
    destruct (delete_image_spec env backup_dir cnt p w)
      as (cnt1 & w1 & Hstep & Hd1 & _).
    rewrite Hstep in Hrun.
    rewrite (IH cnt1 w1); [|congruence|done|set_solver|intros; apply Htgt; by right].
    apply (delete_image_frame env backup_dir cnt p w cnt1 w1); [done|set_solver|].
    unfold backup_target. rewrite HD. apply Htgt. by left.
Qed.

(** When the files on the list are distinct, have distinct backup
    destinations and none lies at a backup destination, every file the loop
    removes has its content at its backup destination at the end. *)
Lemma delete_loop_backups_kept l cnt w cnt' w' p dst :
  dirs w = D →
  delete_loop cnt l w = (Return cnt', w') →
  NoDup l →
  (∀ p1 d1, p1 ∈ l → target p1 = Some d1 → d1 ∉ l) →
  (∀ p1 p2 d, p1 ∈ l → p2 ∈ l → target p1 = Some d → target p2 = Some d → p1 = p2) →
  p ∈ l → target p = Some dst →
  p ∈ dom (files w) → p ∉ dom (files w') →
  files w' !! dst = files w !! p.
Proof.
  revert cnt w. induction l as [|p0 l IH];
    intros cnt w HD Hrun Hnd Hal Hinj Hpl Ht Hp Hp'; [inversion Hpl|].
  cbn [foldM] in Hrun. unfold bind in Hrun.
  destruct (delete_image_spec env backup_dir cnt p0 w)
    as (cnt1 & w1 & Hstep & Hd1 & Hkeep & _ & Hcase & _).
  rewrite Hstep in Hrun. apply NoDup_cons in Hnd as [Hp0 Hnd].
  destruct (decide (p = p0)) as [->|Hne].
  - destruct Hcase as [(_ & _ & _ & _ & Hb)|(_ & Hstay & _)].
    + rewrite <-(Hb dst); [|by unfold backup_target; rewrite HD].
      apply (delete_loop_frame l cnt1 w1 cnt' w'); [congruence|done| |].
      * intros Hin. apply (Hal p0 dst); [by left|done|by right].
      * intros p2 Hp2 Ht2. assert (p2 = p0) as -> by
          (apply (Hinj p2 p0 dst); [by right|by left|done..]). done.
    + destruct Hp'. apply (delete_loop_keeps l cnt1 w1 cnt' w'); auto.
  - apply elem_of_cons in Hpl as [?|Hpl]; [done|].
    assert (files w1 !! p = files w !! p) as <-.
    { apply (delete_image_frame env backup_dir cnt p0 w cnt1 w1); [done..|].
      unfold backup_target. rewrite HD. intros Ht0.
      apply (Hal p0 p); [by left|done|by right]. }
    apply (IH cnt1 w1); try done; [congruence| | |by apply Hkeep].
    + intros p1 d1 Hp1 Ht1 Hd. apply (Hal p1 d1); [by right|done|by right].
    + intros p1 p2 d Hp1 Hp2. apply Hinj; by right.
Qed.
End deletion_loop.

(** C6: the deletion loops never raise, whatever fails for single files,
    and every file on the list is either counted as deleted or reported as
    failed. With a backup directory, a file whose backup copy is refused is still
    there at the end and a failure is reported for it; the loop body never
    removes a file without having written its backup first. A file whose
    removal is refused is still there and reported as failed too. A file on
    the list whose own copy and removal are not refused is removed,
    whatever happens to the other files (provided no file on the list lies
    at a backup destination). *)
Theorem delete_groups_failure_isolation env backup_dir group_info w :
  ∃ deleted_count w',
    delete_groups env backup_dir group_info w = (Return deleted_count, w') ∧
    (∃ failures, stdout w' = stdout w ++ failures ∧
                 deleted_count + len failures = len (paths_of group_info)) ∧
    (∀ X dst,
       X ∈ dom (files w) → backup_target w backup_dir X = Some dst →
       copy_fault (faults env) X dst = true →
       X ∈ dom (files w') ∧ (X ∈ paths_of group_info → delete_failed env X w')) ∧
    (∀ cnt p w0 r w1 dst,
       delete_image env backup_dir cnt p w0 = (r, w1) →
       backup_target w0 backup_dir p = Some dst →
       p ∈ dom (files w0) → p ∉ dom (files w1) →
       files w1 !! dst = files w0 !! p) ∧
    (∀ X,
       X ∈ dom (files w) → remove_fault (faults env) X = true →
       X ∈ dom (files w') ∧ (X ∈ paths_of group_info → delete_failed env X w')) ∧
    (∀ Y,
       Y ∈ paths_of group_info → Y ∈ dom (files w) →
       remove_fault (faults env) Y = false →
       (∀ dst, backup_target w backup_dir Y = Some dst →
               copy_fault (faults env) Y dst = false) →
       (∀ p dst, p ∈ paths_of group_info →
                 backup_target w backup_dir p = Some dst →
                 dst ∉ paths_of group_info) →
       Y ∉ dom (files w')).
Proof.
  rewrite delete_groups_flat.
  destruct (delete_loop_total env backup_dir (paths_of group_info) 0 w)
    as (cnt' & w' & Hrun & _ & _ & _ & evs & Hevs & Htally).
  exists cnt', w'. split; [done|]. split; [|split; [|split; [|split]]].
  - exists evs. split; [done|lia].
  - intros X dst HX Ht Hcf.
    by apply (delete_loop_backup_refused env backup_dir (dirs w)
                (paths_of group_info) 0 w cnt' w' X dst).
  - intros cnt p w0 r w1 dst Hstep Ht Hp Hp'.
    destruct (delete_image_spec env backup_dir cnt p w0)
      as (cnt1 & w1' & Hstep' & _ & _ & _ & Hcase & _).
    rewrite Hstep in Hstep'. injection Hstep' as -> ->.
    destruct Hcase as [(_ & _ & _ & _ & Hb)|(_ & Hkeep & _)]; [by apply Hb|].
    by destruct Hp'; apply Hkeep.
  - intros X HX Hrf.
    by apply (delete_loop_remove_refused env backup_dir
                (paths_of group_info) 0 w cnt' w' X).
  - intros Y HYl HY Hrf Hcf Hal.
    by apply (delete_loop_removes env backup_dir (dirs w)
                (paths_of group_info) 0 w cnt' w' Y).
Qed.

(** The run of C6 on the five copies: [d/2.jpg], whose backup is refused,
    and [d/3.jpg], whose removal is refused, stay and are reported;
    [d/1.jpg] and [d/4.jpg] are removed all the same. *)
Lemma delete_groups_failure_isolation_witness :
  let w' := (delete_groups (example_env five_faults []) (Some "bk")
               five_plan five_world).2 in
  "d/2.jpg" ∈ dom (files w') ∧
  delete_failed (example_env five_faults []) "d/2.jpg" w' ∧
  "d/3.jpg" ∈ dom (files w') ∧
  delete_failed (example_env five_faults []) "d/3.jpg" w' ∧
  ("d/1.jpg" ∉ dom (files w')) ∧
  ("d/4.jpg" ∉ dom (files w')).
Proof.
  destruct (delete_groups_failure_isolation (example_env five_faults [])
              (Some "bk") five_plan five_world)
    as (n & w' & -> & _ & Hrefused & _ & Hlocked & Hremoved).
  cbn [snd].
  assert (∀ p dst, p ∈ paths_of five_plan →
            backup_target five_world (Some "bk") p = Some dst →
            dst ∉ paths_of five_plan) as Hal.
  { intros p dst Hp Ht. cbn in Hp.
    repeat (apply elem_of_cons in Hp as [->|Hp]); [..|inversion Hp];
      vm_compute in Ht; injection Ht as <-; by_compute. }
  destruct (Hrefused "d/2.jpg" "bk/2.jpg") as [H2 H2'];
    [by_compute|reflexivity|reflexivity|].
  destruct (Hlocked "d/3.jpg") as [H3 H3']; [by_compute|reflexivity|].
  split; [exact H2|]. split; [apply H2'; by_compute|].
  split; [exact H3|]. split; [apply H3'; by_compute|].
  split; apply Hremoved; try exact Hal; try by_compute; try reflexivity;
    intros dst Ht; vm_compute in Ht; by injection Ht as <-.
Defined.

(* ===================================================================== *)
(** * Backup destinations                                                 *)
(* ===================================================================== *)











(** The destination depends on the source only through its last path
    segment: two files with the same name have the same destination. *)
Lemma backup_target_basename D backup_dir p1 p2 :
  basename p1 = basename p2 →
  backup_target_in D backup_dir p1 = backup_target_in D backup_dir p2.
Proof. unfold backup_target_in. by intros ->. Qed.




(* ===================================================================== *)
(** * process_duplicates                                                  *)
(* ===================================================================== *)

Lemma only_writes_refl touched w : only_writes touched w w.
Proof. by unfold only_writes. Qed.

Lemma only_writes_trans touched w1 w2 w3 :
  only_writes touched w1 w2 → only_writes touched w2 w3 → only_writes touched w1 w3.
Proof.
  intros (Hd1 & Ho1 & Hk1 & Hf1) (Hd2 & Ho2 & Hk2 & Hf2).
  split; [congruence|]. split; [congruence|]. split; [auto|].
  intros p Hp. by rewrite Hf2, Hf1.
Qed.

Lemma write_file_frame env path content touched w r w' :
  path ∈ touched →
  write_file env path content w = (r, w') → only_writes touched w w'.
Proof.
  intros Hin. unfold write_file.
  destruct (_ || _)%bool; intros [= <- <-]; [apply only_writes_refl|].
  unfold only_writes, set_files. cbn. split; [done|]. split; [done|]. split.
  - intros p Hp. rewrite dom_insert. set_solver.
  - intros p Hp. rewrite lookup_insert_ne; [done|]. by intros ->.
Qed.

Lemma save_results_frame env rw result output_dir w r w' :
  save_results_to_file env rw result output_dir w = (r, w') →
  only_writes (report_paths env output_dir) w w'.
Proof.
  unfold save_results_to_file, bind, report_paths.
  set (json_path := path_join _ ("duplicate_analysis_" +:+ _)).
  set (csv_path := path_join _ ("duplicates_to_remove_" +:+ _)).
  set (summary_path := path_join _ ("duplicate_summary_" +:+ _)).
  set (touched := [json_path; csv_path; summary_path]).
  destruct (write_file env json_path _ w) as [[[]|e1] w1] eqn:H1;
    apply (write_file_frame _ _ _ touched) in H1; [|set_solver| |set_solver];
    [|by intros [= <- <-]].
  rename H1 into Hjson.
  run_step as [[[]|e2] w2] eqn:Hcsv.
  all: assert (only_writes touched w1 w2) as Hcsv'
    by (destruct (has_groups result);
        [by apply (write_file_frame _ _ _ touched) in Hcsv; [|set_solver]
        |unfold ret in Hcsv; simplify_eq; apply only_writes_refl]).
  - intros H3. apply (write_file_frame _ _ _ touched) in H3; [|set_solver].
    eauto using only_writes_trans.
  - intros [= <- <-]. eauto using only_writes_trans.
Qed.

Lemma find_all_images_world root_dir w r w' :
  find_all_images root_dir w = (r, w') → w' = w.
Proof. unfold find_all_images. by destruct (negb _); intros [= <- <-]. Qed.

Lemma find_duplicates_world env self image_dir w r w' :
  find_duplicates env self image_dir w = (r, w') → w' = w.
Proof.
  unfold find_duplicates. destruct (encode_images _ _ _); [|by intros [= <- <-]].
  destruct (negb _); [|by intros [= <- <-]].
  by destruct (_ || _)%bool; intros [= <- <-].
Qed.

(** What a run that ends with status [success] went through. *)
Lemma process_duplicates_success `{SetIter} env rw self image_dir delete
    backup_dir save_results w s w' :
  process_duplicates env rw self image_dir delete backup_dir save_results w
    = (Return (Success s), w') →
  ∃ all_images dups group_info,
    find_all_images image_dir w = (Return all_images, w) ∧
    find_duplicates env self image_dir w = (Return dups, w) ∧
    group_duplicates dups ≠ [] ∧
    plan_groups env (group_duplicates dups) w =
      (Return (group_info, total_duplicates s, total_to_remove s), w) ∧
    total_images s = len all_images ∧
    duplicate_groups s = len (group_duplicates dups) ∧
    groups s = group_info ∧
    remaining_images s = len all_images - total_to_remove s ∧
    (delete = false → deleted s = 0).
Proof.
  unfold process_duplicates, bind at 1.
  destruct (find_all_images image_dir w) as [[all_images|e] w1] eqn:Hfind;
    [|done].
  pose proof (find_all_images_world _ _ _ _ Hfind) as ->.
  destruct (len all_images =? 0); [done|]. unfold bind at 1.
  destruct (find_duplicates env self image_dir w) as [[dups|e] w2] eqn:Hdup;
    [|done].
  pose proof (find_duplicates_world _ _ _ _ _ _ Hdup) as ->.
  destruct (group_duplicates dups) as [|G Gs] eqn:Hgroups; [done|].
  destruct (plan_groups_spec env (G :: Gs) w)
    as (group_info & td & tr & Hplan & _).
  { rewrite <-Hgroups. apply group_duplicates_nonempty. }
  unfold bind at 1. rewrite Hplan. unfold bind at 1.
  run_step as [[deleted_count|e] w3] eqn:Hdel; [|done].
  unfold bind at 1.
  run_step as [[[]|e] w4] eqn:Hsave; [|done].
  unfold ret. intros [= <- <-]. cbn.
  exists all_images, dups, group_info. rewrite Hgroups.
  repeat split; try done. by intros ->.
Qed.

(** C10: in every result with status [success], [total_duplicates] is the
    number of members of all clusters together, [total_to_remove] is that
    number less one per cluster, and so
    [total_duplicates = total_to_remove + duplicate_groups]. *)
Theorem process_duplicates_counters `{SetIter} env rw self image_dir delete
    backup_dir save_results w s w' :
  process_duplicates env rw self image_dir delete backup_dir save_results w
    = (Return (Success s), w') →
  total_duplicates s = total_to_remove s + duplicate_groups s ∧
  ∃ clusters : list (gset string),
    duplicate_groups s = len clusters ∧
    total_duplicates s = sum_sizes clusters ∧
    total_to_remove s = sum_sizes clusters - len clusters.
Proof.
  intros Hrun.
  destruct (process_duplicates_success _ _ _ _ _ _ _ _ _ _ Hrun)
    as (all_images & dups & group_info & _ & _ & _ & Hplan & _ & Hn & _).
  destruct (plan_groups_spec env (group_duplicates dups) w)
    as (gi & td & tr & Hplan' & _ & _ & Htd & Htr);
    [apply group_duplicates_nonempty|].
  rewrite Hplan in Hplan'. injection Hplan' as _ Htd' Htr'.
  split; [lia|]. exists (group_duplicates dups). split; [done|]. split; congruence.
Qed.

(** C8: a call with [delete=False] removes no file: every file that was
    there is still there, with its content unless it lies at one of the
    three report paths; without [save_results] the world is untouched; and
    a [success] result reports 0 deleted files. *)
Theorem process_duplicates_dry_run `{SetIter} env rw self image_dir
    backup_dir save_results w r w' :
  process_duplicates env rw self image_dir false backup_dir save_results w
    = (r, w') →
  (∀ p, p ∈ dom (files w) → p ∈ dom (files w')) ∧
  (∀ p, p ∉ report_paths env "." → files w' !! p = files w !! p) ∧
  dirs w' = dirs w ∧
  (save_results = false → w' = w) ∧
  (∀ s, r = Return (Success s) → deleted s = 0).
Proof.
  intros Hrun.
  assert (only_writes (report_paths env ".") w w' ∧
          (save_results = false → w' = w) ∧
          (∀ s, r = Return (Success s) → deleted s = 0)) as (Hw & Hsame & Hdel).
  2:{ destruct Hw as (? & _ & ? & ?). done. }
  revert Hrun. unfold process_duplicates, bind at 1.
  run_step as [[all_images|e] w1] eqn:Hfind;
    pose proof (find_all_images_world _ _ _ _ Hfind) as ->.
  2:{ intros [= <- <-]. split; [apply only_writes_refl|done]. }
  destruct (len all_images =? 0).
  { intros [= <- <-]. split; [apply only_writes_refl|done]. }
  unfold bind at 1.
  run_step as [[dups|e] w2] eqn:Hdup;
    pose proof (find_duplicates_world _ _ _ _ _ _ Hdup) as ->.
  2:{ intros [= <- <-]. split; [apply only_writes_refl|done]. }
  destruct (group_duplicates dups) as [|G Gs] eqn:Hgroups.
  { intros [= <- <-]. split; [apply only_writes_refl|done]. }
  destruct (plan_groups_spec env (G :: Gs) w)
    as (group_info & td & tr & Hplan & _).
  { rewrite <-Hgroups. apply group_duplicates_nonempty. }
  unfold bind at 1. rewrite Hplan. unfold bind at 1, ret at 1. unfold bind at 1.
  destruct save_results.
  - run_step as [[[]|e] w3] eqn:Hsave; apply save_results_frame in Hsave;
      intros [= <- <-]; (split; [done|]); split; try done.
    by intros s [= <-].
  - unfold ret. intros [= <- <-]. split; [apply only_writes_refl|].
    split; [done|]. by intros s [= <-].
Qed.

(** C9 (amended): when the source root does not exist, [find_all_images]
    raises [FileNotFoundError] and [process_duplicates] lets it through;
    when the root exists and holds no recognised image, the run returns the
    status [no_images], which is neither [success] nor [no_duplicates]. In
    both cases nothing is changed. *)
Theorem process_duplicates_input_missing `{SetIter} env rw self image_dir
    delete backup_dir save_results w :
  (path_exists w image_dir = false →
   process_duplicates env rw self image_dir delete backup_dir save_results w
     = (Raise (FileNotFoundError image_dir), w)) ∧
  (path_exists w image_dir = true →
   (∀ p, p ∈ rglob w image_dir → is_image w p = false) →
   process_duplicates env rw self image_dir delete backup_dir save_results w
     = (Return NoImages, w)) ∧
  status NoImages ≠ "success" ∧
  ∀ n, status NoImages ≠ status (NoDuplicates n).
Proof.
  split; [|split; [|split; [done|done]]].
  - intros Hex. unfold process_duplicates, bind, find_all_images. by rewrite Hex.
  - intros Hex Hnone. unfold process_duplicates, bind, find_all_images.
    rewrite Hex. cbn [negb].
    assert (filter (λ p, is_image w p = true) (rglob w image_dir) = []) as ->.
    { induction (rglob w image_dir) as [|p l IH]; [done|].
      rewrite filter_cons_False.
      - apply IH. intros q Hq. apply Hnone. by right.
      - rewrite Hnone; [done|by left]. }
    done.
Qed.

(* ===================================================================== *)
(** * The specification's scenarios, run                                  *)
(* ===================================================================== *)

(** The simple pair of the specification: one cluster, the larger file is
    kept and the smaller one is to be removed. *)
Example simple_pair_plan :
  (bind (find_duplicates pair_env example_remover "d")
        (λ dups, @plan_groups elements_iter pair_env
                   (@group_duplicates elements_iter dups))
     pair_world).1 =
  Return ([{| group_id := 1; total_count := 2; representative := "d/b.jpg";
              duplicates := ["d/a.jpg"]; remove_count := 1 |}], 2, 1).
Proof. vm_compute. reflexivity. Qed.

(** C4 fails on the code: in the group [{a.jpg, b.jpg}] the only readable
    member is [b.jpg], of size 0; the loop never takes a file of size 0 as
    best (it starts from [best_size = 0] and compares with [>]), so the
    fallback returns the first member in iteration order, here [a.jpg],
    whose size cannot be read. *)
Theorem select_representative_skips_empty_file :
  getsize pair_env zero_size_world "b.jpg" = Some 0 ∧
  getsize pair_env zero_size_world "a.jpg" = None ∧
  @select_representative elements_iter pair_env {["a.jpg"; "b.jpg"]} zero_size_world
    = (Return "a.jpg", zero_size_world).
Proof. vm_compute. done. Qed.

(** The planner of C5 on the five copies. *)
Lemma plan_groups_removal_complete_witness :
  ∃ group_info total_duplicates total_to_remove,
    @plan_groups elements_iter pair_env
      [{["d/1.jpg"; "d/2.jpg"; "d/3.jpg"; "d/4.jpg"; "d/5.jpg"]}] five_world =
      (Return (group_info, total_duplicates, total_to_remove), five_world) ∧
    Forall2 (λ G d,
      representative d ∈ G ∧
      (list_to_set (duplicates d) : gset string) = G ∖ {[representative d]} ∧
      (representative d ∉ duplicates d) ∧
      NoDup (duplicates d) ∧
      (length (duplicates d) = size G - 1)%nat ∧
      total_count d = set_len G ∧
      remove_count d = set_len G - 1)
      [{["d/1.jpg"; "d/2.jpg"; "d/3.jpg"; "d/4.jpg"; "d/5.jpg"]}] group_info.
Proof.
  apply (@plan_groups_removal_complete elements_iter).
  constructor; [by_compute|constructor].
Defined.

(** The dry run of C8 on the simple pair: both images are still there and
    the result reports no deletion. *)
Lemma process_duplicates_dry_run_witness :
  let run := @process_duplicates elements_iter pair_env example_writer
               example_remover "d" false (Some "bk") true pair_world in
  "d/a.jpg" ∈ dom (files run.2) ∧ "d/b.jpg" ∈ dom (files run.2) ∧
  ∀ s, run.1 = Return (Success s) → deleted s = 0.
Proof.
  cbv zeta.
  destruct (@process_duplicates elements_iter pair_env example_writer
              example_remover "d" false (Some "bk") true pair_world)
    as [r w'] eqn:Hrun.
  destruct (process_duplicates_dry_run _ _ _ _ _ _ _ _ _ Hrun)
    as (Hkeep & _ & _ & _ & Hdel).
  cbn [fst snd]. split; [apply Hkeep; by_compute|].
  split; [apply Hkeep; by_compute|exact Hdel].
Defined.

(** C9 as stated fails: on a source root that does not exist the call
    raises instead of returning a status. *)
Lemma input_missing_raises :
  path_exists pair_world "missing" = false ∧
  ¬ @reports_input_missing elements_iter pair_env example_writer
      example_remover "missing" false None true pair_world.
Proof.
  split; [reflexivity|]. intros (r & w' & Hrun & _).
  vm_compute in Hrun. discriminate Hrun.
Qed.

(** The amended C9 on an existing directory without images. *)
Lemma process_duplicates_input_missing_witness :
  @process_duplicates elements_iter pair_env example_writer example_remover
    "bk" false None true five_world = (Return NoImages, five_world).
Proof.
  apply (proj1 (proj2 (@process_duplicates_input_missing elements_iter
                         pair_env example_writer example_remover "bk"
                         false None true five_world))).
  - reflexivity.
  - intros p Hp. vm_compute in Hp. inversion Hp.
Defined.

(** The counters of C10 on the simple pair. *)
Lemma process_duplicates_counters_witness :
  match (@process_duplicates elements_iter pair_env example_writer
           example_remover "d" true None true pair_world).1 with
  | Return (Success s) =>
      total_duplicates s = total_to_remove s + duplicate_groups s ∧
      total_duplicates s = 2 ∧ duplicate_groups s = 1
  | _ => False
  end.
Proof.
  destruct (@process_duplicates elements_iter pair_env example_writer
              example_remover "d" true None true pair_world)
    as [[[| |s]|e] w'] eqn:Hrun; cbn [fst];
    try (vm_compute in Hrun; discriminate Hrun).
  split; [exact (proj1 (process_duplicates_counters _ _ _ _ _ _ _ _ _ _ Hrun))|].
  vm_compute in Hrun. injection Hrun as <- _. split; reflexivity.
Defined.

(* ===================================================================== *)
(** * Further properties: clustering                                      *)
(* ===================================================================== *)

Lemma in_relation_edge (duplicates : DuplicateMap) a :
  in_relation duplicates a ↔ ∃ b, edge duplicates a b.
Proof.
  split.
  - intros (k & l & Hin & Hne & [->|Ha]).
    + destruct l as [|d l]; [done|]. exists d, k, (d :: l).
      split; [done|]. left. split; [done|by left].
    + exists k, k, l. split; [done|]. by right.
  - intros [b He]. by apply edge_in_relation in He as [? _].
Qed.

(** X1: every cluster [group_duplicates] emits is the connected component
    of each of its members: an image is in the cluster exactly when a chain
    of duplicate edges, in either direction, leads to it from the member. *)
Theorem clusters_are_components `{SetIter} (duplicates : DuplicateMap) G x :
  G ∈ group_duplicates duplicates → x ∈ G →
  ∀ y, y ∈ G ↔ rtc (edge duplicates) x y.
Proof. apply group_duplicates_components. Qed.

Lemma clusters_are_components_witness :
  {["a.jpg"; "b.jpg"; "c.jpg"]}
    ∈ @group_duplicates elements_iter
        [("a.jpg", ["b.jpg"]); ("b.jpg", ["c.jpg"]); ("c.jpg", [])] ∧
  rtc (edge [("a.jpg", ["b.jpg"]); ("b.jpg", ["c.jpg"]); ("c.jpg", [])])
      "a.jpg" "c.jpg".
Proof.
  assert ({["a.jpg"; "b.jpg"; "c.jpg"]}
            ∈ @group_duplicates elements_iter
                [("a.jpg", ["b.jpg"]); ("b.jpg", ["c.jpg"]); ("c.jpg", [])]) as HG.
  { by_compute. }
  split; [exact HG|].
  apply (@clusters_are_components elements_iter _ _ "a.jpg" HG); set_solver.
Defined.

(** X2: the clusters depend on the duplicate map only through its set of
    undirected duplicate edges: two runs on maps with the same edges,
    however these are spread over keys and lists and whatever the iteration
    orders of the sets in either run, return the same clusters; only the
    order in which the clusters are listed can differ. *)
Theorem clusters_depend_on_edges_only (I1 I2 : SetIter) (m1 m2 : DuplicateMap) :
  (∀ a b, edge m1 a b ↔ edge m2 a b) →
  @group_duplicates I1 m1 ≡ₚ @group_duplicates I2 m2.
Proof. apply group_duplicates_perm. Qed.

(** Two maps with the same two edges, the second with its keys in the other
    order and run with the reversed iteration order: the two runs list the
    same two clusters, in opposite orders. *)
Lemma clusters_depend_on_edges_only_witness :
  let m1 := [("img0", ["img1"]); ("img2", ["img3"])] in
  let m2 := [("img2", ["img3"]); ("img0", ["img1"])] in
  @group_duplicates elements_iter m1 ≡ₚ @group_duplicates reversed_iter m2 ∧
  @group_duplicates elements_iter m1 ≠ @group_duplicates reversed_iter m2.
Proof.
  cbv zeta. split.
  - apply (clusters_depend_on_edges_only elements_iter reversed_iter).
    intros a b. rewrite !edge_cons, !edge_nil. tauto.
  - vm_compute. discriminate.
Defined.

(** X3: [group_duplicates] returns no cluster exactly when no duplicate
    edge joins two different images (all lists empty, or every image listed
    only under itself). *)
Theorem no_clusters_iff_no_proper_edge `{SetIter} (duplicates : DuplicateMap) :
  group_duplicates duplicates = [] ↔ ∀ x y, edge duplicates x y → y = x.
Proof.
  split.
  - intros Hnil x y He. destruct (decide (y = x)) as [|Hne]; [done|].
    destruct (group_duplicates_spec duplicates) as (_ & _ & Hcov).
    destruct (Hcov x y He Hne) as (G & HG & _). rewrite Hnil in HG. inversion HG.
  - intros Hself. destruct (group_duplicates duplicates) as [|G rest] eqn:Hgroups;
      [done|]. exfalso.
    assert (G ∈ group_duplicates duplicates) as HG by (rewrite Hgroups; by left).
    pose proof (group_duplicates_nonempty duplicates) as Hne.
    rewrite Forall_forall in Hne. specialize (Hne G HG).
    apply set_choose_L in Hne as [x Hx].
    destruct (other_member_edge duplicates G x HG Hx) as (y & He & Hyx).
    by apply Hyx, (Hself x y).
Qed.

(** X4: the graph the first loop builds is symmetric, its node set
    [all_images] holds exactly the images with at least one neighbour, and
    both ends of every edge are in it. *)
Theorem build_graph_symmetric (duplicates : DuplicateMap) :
  let graph := (build_graph duplicates).1 in
  let all_images := (build_graph duplicates).2 in
  (∀ a b, b ∈ graph_get graph a ↔ a ∈ graph_get graph b) ∧
  (∀ a, a ∈ all_images ↔ graph_get graph a ≠ ∅) ∧
  (∀ a b, b ∈ graph_get graph a → a ∈ all_images ∧ b ∈ all_images).
Proof.
  destruct (build_graph duplicates) as [graph all] eqn:Hb. cbn [fst snd].
  apply build_graph_spec in Hb as [Hg Ha]. split; [|split].
  - intros a b. rewrite !Hg. split; apply edge_sym.
  - intros a. rewrite Ha, in_relation_edge. split.
    + intros [b He%Hg]. set_solver.
    + intros [b Hb]%set_choose_L. exists b. by apply Hg.
  - intros a b. rewrite Hg, !Ha. apply edge_in_relation.
Qed.

(** X5: every traversal [group_duplicates] starts from an image of
    [all_images] ends with an empty stack after at most
    [1 + sum over the images v of (1 + number of neighbours of v)]
    iterations of the [while] loop; further iterations would change
    nothing. *)
Theorem traversal_terminates `{SetIter} (duplicates : DuplicateMap) vis image extra :
  let graph := (build_graph duplicates).1 in
  let all_images := (build_graph duplicates).2 in
  let start := {| stack := [image]; visited := vis; group := ∅ |} in
  image ∈ all_images →
  stack (dfs_loop (dfs_fuel graph all_images) graph start) = [] ∧
  dfs_loop (dfs_fuel graph all_images + extra) graph start =
    dfs_loop (dfs_fuel graph all_images) graph start.
Proof.
  destruct (build_graph duplicates) as [graph all] eqn:Hb. cbn [fst snd].
  intros Himg.
  pose proof (group_duplicates_traversals_finish duplicates graph all vis image
                Hb Himg) as Hend.
  split; [done|]. by apply dfs_loop_stable.
Qed.

Lemma traversal_terminates_witness :
  let graph := (build_graph pair_map).1 in
  let all_images := (build_graph pair_map).2 in
  "d/a.jpg" ∈ all_images ∧
  stack (@dfs_loop elements_iter (dfs_fuel graph all_images) graph
           {| stack := ["d/a.jpg"]; visited := ∅; group := ∅ |}) = [].
Proof.
  cbv zeta.
  assert ("d/a.jpg" ∈ (build_graph pair_map).2) as Hin by by_compute.
  split; [exact Hin|].
  exact (proj1 (@traversal_terminates elements_iter pair_map ∅ "d/a.jpg" 0%nat Hin)).
Defined.

(* ===================================================================== *)
(** * Further properties: representative selection                        *)
(* ===================================================================== *)

(** When the loop ends with a best image, that image is the first member,
    in the order gone through, of largest readable size. *)
Lemma select_loop_first_largest env w l best best_size :
  foldl (select_step env w) (None, 0) l = (Some best, best_size) →
  ∃ l1 l2, l = l1 ++ best :: l2 ∧ getsize env w best = Some best_size ∧
    (∀ p sz, p ∈ l1 → getsize env w p = Some sz → sz < best_size) ∧
    (∀ p sz, p ∈ l2 → getsize env w p = Some sz → sz ≤ best_size).
Proof.
  revert best best_size. induction l as [|x l IH] using rev_ind;
    intros best best_size; [done|].
  rewrite foldl_app. cbn [foldl].
  pose proof (select_loop_inv env w l) as (_ & Hmax & _).
  destruct (foldl (select_step env w) (None, 0) l) as [b0 s0] eqn:Hfold.
  cbn [fst snd] in Hmax. unfold select_step.
  destruct (getsize env w x) as [file_size|] eqn:Hx.
  - destruct (Z.ltb_spec s0 file_size) as [Hlt|Hge].
    + intros [= <- <-]. exists l, []. split; [done|]. split; [done|]. split.
      * intros p sz Hp Hsz. specialize (Hmax p sz Hp Hsz). lia.
      * intros p sz Hp. inversion Hp.
    + intros [= -> ->]. destruct (IH best best_size eq_refl)
        as (l1 & l2 & -> & Hb & Hbefore & Hafter).
      exists l1, (l2 ++ [x]). rewrite <-app_assoc. split; [done|].
      split; [done|]. split; [done|].
      intros p sz [Hp | ->%list_elem_of_singleton]%elem_of_app Hsz.
      * by apply (Hafter p sz).
      * rewrite Hx in Hsz. injection Hsz as <-. lia.
  - intros [= -> ->]. destruct (IH best best_size eq_refl)
      as (l1 & l2 & -> & Hb & Hbefore & Hafter).
    exists l1, (l2 ++ [x]). rewrite <-app_assoc. split; [done|].
    split; [done|]. split; [done|].
    intros p sz [Hp | ->%list_elem_of_singleton]%elem_of_app Hsz.
    + by apply (Hafter p sz).
    + by rewrite Hx in Hsz.
Qed.

(** X6: when some member of the group has a readable size above zero,
    [select_representative] returns, without touching the file system, the
    first member in iteration order among those of largest readable size:
    every readable member before it is strictly smaller and none after it
    is larger (ties go to the member met first). *)
Theorem select_representative_first_largest `{SetIter} env (group : gset string)
    w p sz :
  p ∈ group → getsize env w p = Some sz → 0 < sz →
  ∃ r best_size l1 l2,
    select_representative env group w = (Return r, w) ∧
    iter_set group = l1 ++ r :: l2 ∧
    getsize env w r = Some best_size ∧
    (∀ q sz', q ∈ l1 → getsize env w q = Some sz' → sz' < best_size) ∧
    (∀ q sz', q ∈ l2 → getsize env w q = Some sz' → sz' ≤ best_size).
Proof.
  intros Hp Hsz Hpos. unfold select_representative.
  pose proof (select_loop_inv env w (iter_set group)) as (_ & Hmax & Hbest).
  destruct (foldl (select_step env w) (None, 0) (iter_set group))
    as [best_image best_size] eqn:Hfold. cbn [fst snd] in *.
  assert (sz ≤ best_size) as Hle.
  { apply (Hmax p); [by apply elem_of_iter_set|done]. }
  destruct best_image as [best|]; [|lia].
  destruct (select_loop_first_largest env w _ _ _ Hfold)
    as (l1 & l2 & Hl & Hb & Hbefore & Hafter).
  cbn [truthy].
  destruct (String.eqb_spec best "") as [->|_]; [by rewrite getsize_empty_path in Hb|].
  by exists best, best_size, l1, l2.
Qed.

Lemma select_representative_first_largest_witness :
  ∃ r best_size l1 l2,
    @select_representative elements_iter pair_env {["d/a.jpg"; "d/b.jpg"]} pair_world
      = (Return r, pair_world) ∧
    @iter_set elements_iter {["d/a.jpg"; "d/b.jpg"]} = l1 ++ r :: l2 ∧
    getsize pair_env pair_world r = Some best_size ∧
    (∀ q sz', q ∈ l1 → getsize pair_env pair_world q = Some sz' → sz' < best_size) ∧
    (∀ q sz', q ∈ l2 → getsize pair_env pair_world q = Some sz' → sz' ≤ best_size).
Proof.
  apply (@select_representative_first_largest elements_iter pair_env _ pair_world
           "d/a.jpg" 100); [by_compute|reflexivity|reflexivity].
Defined.

(** X7: [select_representative] raises [IndexError] on the empty group
    and on no other; on a non-empty group it returns one of the members,
    also when no size can be read. It never changes the file system. *)
Theorem select_representative_defined `{SetIter} env (group : gset string) w :
  (group = ∅ → select_representative env group w = (Raise IndexError, w)) ∧
  (group ≠ ∅ → ∃ r, select_representative env group w = (Return r, w) ∧ r ∈ group).
Proof.
  split; [|apply select_representative_member].
  intros ->. unfold select_representative.
  assert (iter_set (∅ : gset string) = []) as ->.
  { apply Permutation_nil_r. by rewrite iter_set_perm, elements_empty. }
  done.
Qed.

(* ===================================================================== *)
(** * Further properties: construction, scanning and the hasher           *)
(* ===================================================================== *)



(** X9: the constructor accepts exactly the five method names and raises
    [ValueError] on any other; the object it builds keeps the name and the
    threshold, and its hasher is the CNN exactly when the name is [cnn]
    (the test [method_name != 'cnn'] of [find_duplicates] and the hasher
    agree). *)
Theorem init_spec (method : string) (value : Z) :
  (method ∈ ["phash"; "dhash"; "ahash"; "whash"; "cnn"] →
   ∃ self, init method value = Return self ∧
           method_name self = method ∧
           threshold self = value ∧
           (hasher self = CNN ↔ method = "cnn")) ∧
  (method ∉ ["phash"; "dhash"; "ahash"; "whash"; "cnn"] →
   init method value = Raise (ValueError method)).
Proof.
  unfold init.
  destruct (String.eqb_spec method "phash") as [->|H1].
  { split; [|set_solver]. intros _. eexists. split; [done|]. cbn.
    split; [done|]. split; [done|]. split; discriminate. }
  destruct (String.eqb_spec method "dhash") as [->|H2].
  { split; [|set_solver]. intros _. eexists. split; [done|]. cbn.
    split; [done|]. split; [done|]. split; discriminate. }
  destruct (String.eqb_spec method "ahash") as [->|H3].
  { split; [|set_solver]. intros _. eexists. split; [done|]. cbn.
    split; [done|]. split; [done|]. split; discriminate. }
  destruct (String.eqb_spec method "whash") as [->|H4].
  { split; [|set_solver]. intros _. eexists. split; [done|]. cbn.
    split; [done|]. split; [done|]. split; discriminate. }
  destruct (String.eqb_spec method "cnn") as [->|H5].
  { split; [|set_solver]. intros _. eexists. split; [done|]. cbn. done. }
  split; [set_solver|done].
Qed.

(** [find_duplicates] never changes the file system. For a method
    other than [cnn], once the images are encoded it raises [ValueError]
    when the threshold is below 0 or above 64, and otherwise passes the
    threshold to the hasher as its maximal distance; for [cnn] it passes no
    threshold, whatever its value. An error of the encoding is raised
    again. *)
Lemma find_duplicates_spec env self image_dir w :
  let h := hasher_of env (hasher self) in
  (find_duplicates env self image_dir w).2 = w ∧
  (∀ e, encode_images h w image_dir = Raise e →
        (find_duplicates env self image_dir w).1 = Raise e) ∧
  (∀ encodings, encode_images h w image_dir = Return encodings →
     (method_name self = "cnn" →
      (find_duplicates env self image_dir w).1 =
        hasher_find_duplicates h encodings None) ∧
     (method_name self ≠ "cnn" →
      (threshold self < 0 ∨ 64 < threshold self →
       (find_duplicates env self image_dir w).1 = Raise (ValueError "threshold")) ∧
      (0 ≤ threshold self ≤ 64 →
       (find_duplicates env self image_dir w).1 =
         hasher_find_duplicates h encodings (Some (threshold self))))).
Proof.
  cbv zeta. split; [|split].
  - destruct (find_duplicates env self image_dir w) as [r w'] eqn:Hrun.
    by apply find_duplicates_world in Hrun.
  - intros e He. unfold find_duplicates. by rewrite He.
  - intros encodings He. unfold find_duplicates. rewrite He.
    destruct (String.eqb_spec (method_name self) "cnn") as [Hcnn|Hcnn]; cbn [negb].
    + split; [done|]. by intros [].
    + split; [done|]. intros _. split.
      * intros Hout.
        destruct (Z.ltb_spec (threshold self) 0), (Z.ltb_spec 64 (threshold self));
          cbn; (done || lia).
      * intros Hin.
        destruct (Z.ltb_spec (threshold self) 0), (Z.ltb_spec 64 (threshold self));
          cbn; (done || lia).
Qed.

(* ===================================================================== *)
(** * Further properties: the run as a whole                              *)
(* ===================================================================== *)

Lemma len_zero_nil {A} (l : list A) : (len l =? 0) = true ↔ l = [].
Proof.
  unfold len. rewrite Z.eqb_eq. destruct l; cbn [length]; split; try done; lia.
Qed.

(** Every call of [process_duplicates] goes one of the seven ways of
    [run_outcome]. *)
Lemma process_duplicates_outcome `{SetIter} env rw self image_dir delete
    backup_dir save_results w r w' :
  process_duplicates env rw self image_dir delete backup_dir save_results w
    = (r, w') →
  run_outcome env rw self image_dir delete backup_dir save_results w r w'.
Proof.
  unfold process_duplicates, bind at 1.
  run_step as [[all_images|e] w1] eqn:Hfind;
    pose proof (find_all_images_world _ _ _ _ Hfind) as ->.
  2:{ intros [= <- <-]. by apply scan_failed. }
  destruct (len all_images =? 0) eqn:Hlen.
  { apply len_zero_nil in Hlen as ->. intros [= <- <-]. by apply no_images. }
  assert (all_images ≠ []) as Hne.
  { intros Hnil. apply len_zero_nil in Hnil. congruence. }
  unfold bind at 1.
  run_step as [[dups|e] w2] eqn:Hdup;
    pose proof (find_duplicates_world _ _ _ _ _ _ Hdup) as ->.
  2:{ intros [= <- <-]. by eapply hasher_failed. }
  destruct (group_duplicates dups) as [|G Gs] eqn:Hgroups.
  { intros [= <- <-]. by eapply no_duplicates. }
  destruct (plan_groups_spec env (G :: Gs) w)
    as (group_info & td & tr & Hplan & _).
  { rewrite <-Hgroups. apply group_duplicates_nonempty. }
  unfold bind at 1. rewrite Hplan. unfold bind at 1.
  fold (delete_stage env delete backup_dir group_info).
  destruct (delete_stage env delete backup_dir group_info w)
    as [[deleted_count|e] w2] eqn:Hdel.
  2:{ intros [= <- <-]. eapply deletion_failed; eauto; rewrite Hgroups; done. }
  unfold bind at 1.
  fold (success_result env self image_dir delete all_images (G :: Gs)
          group_info td tr deleted_count).
  fold (save_stage env rw save_results
          (success_result env self image_dir delete all_images (G :: Gs)
             group_info td tr deleted_count)).
  destruct (save_stage env rw save_results _ w2) as [[[]|e] w3] eqn:Hsave.
  - unfold ret. intros [= <- <-]. rewrite <-Hgroups in *.
    eapply succeeded; eauto. by rewrite Hgroups.
  - intros [= <- <-]. rewrite <-Hgroups in *.
    eapply saving_failed; eauto. by rewrite Hgroups.
Qed.

Lemma pairwise_disjoint_cons_inv G (groups : list (gset string)) :
  pairwise_disjoint (G :: groups) →
  (∀ G', G' ∈ groups → G ## G') ∧ pairwise_disjoint groups.
Proof.
  intros Hpd. split.
  - intros G' [j Hj]%list_elem_of_lookup. by apply (Hpd 0%nat (S j) G G').
  - intros i j Gi Gj Hi Hj Hne. apply (Hpd (S i) (S j) Gi Gj); [done..|lia].
Qed.

Lemma decision_duplicates_subset G d p :
  decision_of G d → p ∈ duplicates d → p ∈ G ∧ p ≠ representative d.
Proof.
  intros (_ & Hset & _) Hp.
  assert (p ∈ (list_to_set (duplicates d) : gset string)) as Hp'
    by by apply elem_of_list_to_set.
  rewrite Hset in Hp'. set_solver.
Qed.

(** The to-remove lists of a plan built from disjoint clusters: no path
    twice, every path in a cluster, no representative among them, and as
    many paths as the clusters have members beyond one each. *)
Lemma plan_paths_spec (clusters : list (gset string)) (group_info : list GroupData) :
  Forall2 decision_of clusters group_info → pairwise_disjoint clusters →
  NoDup (paths_of group_info) ∧
  (∀ p, p ∈ paths_of group_info → ∃ G, G ∈ clusters ∧ p ∈ G) ∧
  (∀ d, d ∈ group_info →
        (representative d ∉ paths_of group_info) ∧
        ∃ G, G ∈ clusters ∧ representative d ∈ G) ∧
  len (paths_of group_info) = sum_sizes clusters - len clusters.
Proof.
  intros Hds. induction Hds as [|G d clusters group_info Hd Hds IH]; intros Hpd.
  - unfold paths_of, len. cbn. split; [constructor|]. split; [by intros p Hp; inversion Hp|].
    split; [by intros d Hd; inversion Hd|done].
  - apply pairwise_disjoint_cons_inv in Hpd as [Hdisj Hpd].
    destruct (IH Hpd) as (Hnd & Hin & Hrep & Hlen).
    assert (paths_of (d :: group_info) = duplicates d ++ paths_of group_info) as ->
      by done.
    split; [|split; [|split]].
    + apply NoDup_app. split; [by destruct Hd as (_ & _ & _ & ? & _)|]. split; [|done].
      intros p Hp Hp'. apply (decision_duplicates_subset G d p Hd) in Hp as [Hp _].
      destruct (Hin p Hp') as (G' & HG' & HpG'). specialize (Hdisj G' HG'). set_solver.
    + intros p [Hp|Hp]%elem_of_app.
      * exists G. split; [by left|]. by apply (decision_duplicates_subset G d p Hd).
      * destruct (Hin p Hp) as (G' & HG' & HpG'). exists G'. split; [by right|done].
    + intros d' [->|Hd']%elem_of_cons.
      * split; [|exists G; split; [by left|by destruct Hd]].
        intros [Hp|Hp]%elem_of_app.
        -- by destruct Hd as (_ & _ & ? & _).
        -- destruct (Hin _ Hp) as (G' & HG' & HpG'). specialize (Hdisj G' HG').
           destruct Hd as (? & _). set_solver.
      * destruct (Hrep d' Hd') as (Hnot & G' & HG' & Hr).
        split; [|exists G'; split; [by right|done]].
        intros [Hp|Hp]%elem_of_app; [|done].
        apply (decision_duplicates_subset G d _ Hd) in Hp as [Hp _].
        specialize (Hdisj G' HG'). set_solver.
    + unfold len in *. rewrite length_app, Nat2Z.inj_add, Hlen. cbn [sum_sizes foldr length].
      fold (sum_sizes clusters).
      destruct Hd as (Hr & _ & _ & _ & Hl & _).
      pose proof (size_remove_member G _ Hr). unfold set_len. lia.
Qed.

(** The plan of a run: what [plan_groups] makes of the clusters of
    [group_duplicates]. *)
Lemma plan_of_clusters `{SetIter} env (dups : DuplicateMap) w group_info td tr :
  plan_groups env (group_duplicates dups) w = (Return (group_info, td, tr), w) →
  Forall2 decision_of (group_duplicates dups) group_info ∧
  (∀ k d, group_info !! k = Some d → group_id d = 1 + Z.of_nat k) ∧
  td = sum_sizes (group_duplicates dups) ∧
  tr = sum_sizes (group_duplicates dups) - len (group_duplicates dups).
Proof.
  intros Hplan.
  destruct (plan_groups_spec env (group_duplicates dups) w)
    as (gi & td' & tr' & Hplan' & Hds & Hids & Htd & Htr);
    [apply group_duplicates_nonempty|].
  rewrite Hplan in Hplan'. by injection Hplan' as -> -> ->.
Qed.

(* ===================================================================== *)
(** * Further properties: the deletion run                                *)
(* ===================================================================== *)

Lemma delete_image_missing env backup_dir cnt p w :
  files w !! p = None →
  delete_image env backup_dir cnt p w =
    (Return cnt,
     {| files := files w; dirs := dirs w;
        stdout := stdout w ++ [DeleteFailed (TQDM_AVAILABLE env) (basename p)
                                 (FileNotFoundError p)] |}).
Proof.
  intros Hp. unfold delete_image, try_except, bind, ret, copy2, os_remove, print.
  destruct (truthy backup_dir); cbn; by rewrite Hp.
Qed.

Lemma delete_loop_missing env backup_dir l cnt w :
  (∀ p, p ∈ l → p ∉ dom (files w)) →
  foldM (delete_image env backup_dir) cnt l w =
    (Return cnt,
     {| files := files w; dirs := dirs w;
        stdout := stdout w ++
                  ((λ p, DeleteFailed (TQDM_AVAILABLE env) (basename p)
                           (FileNotFoundError p)) <$> l) |}).
Proof.
  revert w. induction l as [|p l IH]; intros w Hl.
  - cbn. rewrite app_nil_r. by destruct w.
  - cbn [foldM]. unfold bind. rewrite delete_image_missing.
    + rewrite IH; [|intros q Hq; apply Hl; by right]. cbn.
      by rewrite <-app_assoc.
    + apply not_elem_of_dom. apply Hl. by left.
Qed.

(** X10: when none of the listed files exists (as on a second run of the
    same plan), the deletion loops remove nothing and count nothing, do not
    raise and write no backup: the file system is as before, and one
    [FileNotFoundError] failure per listed file is reported, in order. *)
Theorem delete_groups_on_missing_files env backup_dir group_info w :
  (∀ p, p ∈ paths_of group_info → p ∉ dom (files w)) →
  delete_groups env backup_dir group_info w =
    (Return 0,
     {| files := files w; dirs := dirs w;
        stdout := stdout w ++
                  ((λ p, DeleteFailed (TQDM_AVAILABLE env) (basename p)
                           (FileNotFoundError p)) <$> paths_of group_info) |}).
Proof. intros Hl. rewrite delete_groups_flat. by apply delete_loop_missing. Qed.

Lemma delete_loop_all_succeed env backup_dir l cnt w :
  NoDup l →
  (∀ p, p ∈ l →
        p ∈ dom (files w) ∧ remove_fault (faults env) p = false ∧
        ∀ dst, backup_target w backup_dir p = Some dst →
               (dst ∉ l) ∧ copy_fault (faults env) p dst = false) →
  ∃ w', foldM (delete_image env backup_dir) cnt l w = (Return (cnt + len l), w') ∧
        stdout w' = stdout w.
Proof.
  revert cnt w. induction l as [|p l IH]; intros cnt w Hnd Hl.
  - exists w. unfold len. cbn. by rewrite Z.add_0_r.
  - apply NoDup_cons in Hnd as [Hpl Hnd].
    destruct (Hl p) as (Hp & Hrf & Hdst); [by left|].
    cbn [foldM]. unfold bind.
    destruct (delete_image_spec env backup_dir cnt p w)
      as (cnt1 & w1 & -> & Hd1 & Hkeep & _ & Hcase & Hrem & _).
    assert (p ∉ dom (files w1)) as Hgone.
    { apply Hrem; [done..|]. intros dst Ht. destruct (Hdst dst Ht) as [Hnot ?].
      split; [|done]. intros ->. apply Hnot. by left. }
    destruct Hcase as [(-> & _ & _ & Hout & _)|(_ & Hstay & _)]; [|by destruct Hgone; auto].
    destruct (IH (cnt + 1) w1 Hnd) as (w' & -> & Hout').
    + intros q Hq. destruct (Hl q) as (Hq' & Hrf' & Hdst'); [by right|].
      split; [apply Hkeep; [by intros ->|done]|]. split; [done|].
      intros dst Ht. unfold backup_target in Ht. rewrite Hd1 in Ht.
      destruct (Hdst' dst Ht) as [Hnot ?]. split; [|done].
      intros Hin. apply Hnot. by right.
    + exists w'. unfold len. cbn [length]. split; [|congruence].
      do 2 f_equal. lia.
Qed.

(** X11: when the listed files are distinct and all exist, none of their
    copies or removals is refused, and their backup destinations are
    distinct and off the list, the deletion loops remove every listed file,
    count them all and report no failure; with a backup directory, the
    content of each removed file is at its backup destination; every path
    that is neither listed nor a backup destination is left as it was. *)
Theorem delete_groups_all_succeed env backup_dir group_info w :
  NoDup (paths_of group_info) →
  (∀ p, p ∈ paths_of group_info →
        p ∈ dom (files w) ∧ remove_fault (faults env) p = false ∧
        ∀ dst, backup_target w backup_dir p = Some dst →
               (dst ∉ paths_of group_info) ∧ copy_fault (faults env) p dst = false) →
  (∀ p1 p2 dst, p1 ∈ paths_of group_info → p2 ∈ paths_of group_info →
                backup_target w backup_dir p1 = Some dst →
                backup_target w backup_dir p2 = Some dst → p1 = p2) →
  ∃ w',
    delete_groups env backup_dir group_info w =
      (Return (len (paths_of group_info)), w') ∧
    stdout w' = stdout w ∧
    (∀ p, p ∈ paths_of group_info → p ∉ dom (files w')) ∧
    (∀ p dst, p ∈ paths_of group_info → backup_target w backup_dir p = Some dst →
              files w' !! dst = files w !! p) ∧
    (∀ q, q ∉ paths_of group_info →
          (∀ p, p ∈ paths_of group_info → backup_target w backup_dir p ≠ Some q) →
          files w' !! q = files w !! q).
Proof.
  intros Hnd Hl Hinj. rewrite delete_groups_flat.
  destruct (delete_loop_all_succeed env backup_dir (paths_of group_info) 0 w Hnd Hl)
    as (w' & Hrun & Hout).
  rewrite Z.add_0_l in Hrun.
  exists w'. split; [done|]. split; [done|].
  assert (∀ p, p ∈ paths_of group_info → p ∉ dom (files w')) as Hgone.
  { intros p Hp. destruct (Hl p Hp) as (Hex & Hrf & Hdst).
    apply (delete_loop_removes env backup_dir (dirs w) (paths_of group_info)
             0 w (len (paths_of group_info)) w' p); try done.
    - intros dst Ht. by apply (Hdst dst).
    - intros q dst Hq Ht. by apply (Hl q Hq). }
  split; [done|]. split.
  - intros p dst Hp Ht. destruct (Hl p Hp) as (Hex & _).
    apply (delete_loop_backups_kept env backup_dir (dirs w) (paths_of group_info)
             0 w (len (paths_of group_info)) w' p dst); try done.
    + intros p1 d1 Hp1 Ht1. by apply (Hl p1 Hp1).
    + by apply Hgone.
  - intros q Hq Hnt.
    by apply (delete_loop_frame env backup_dir (dirs w) (paths_of group_info)
                0 w (len (paths_of group_info)) w' q).
Qed.

Lemma delete_groups_on_missing_files_witness :
  delete_groups pair_env None five_plan pair_world =
    (Return 0,
     {| files := files pair_world; dirs := dirs pair_world;
        stdout := stdout pair_world ++
                  ((λ p, DeleteFailed (TQDM_AVAILABLE pair_env) (basename p)
                           (FileNotFoundError p)) <$> paths_of five_plan) |}).
Proof.
  apply delete_groups_on_missing_files.
  intros p Hp. cbn in Hp.
  repeat (apply elem_of_cons in Hp as [->|Hp]); [..|inversion Hp]; by_compute.
Defined.

Lemma delete_groups_all_succeed_witness :
  ∃ w',
    delete_groups (example_env no_faults []) (Some "bk") five_plan five_world =
      (Return (len (paths_of five_plan)), w') ∧
    stdout w' = stdout five_world ∧
    (∀ p, p ∈ paths_of five_plan → p ∉ dom (files w')) ∧
    (∀ p dst, p ∈ paths_of five_plan →
              backup_target five_world (Some "bk") p = Some dst →
              files w' !! dst = files five_world !! p) ∧
    (∀ q, q ∉ paths_of five_plan →
          (∀ p, p ∈ paths_of five_plan →
                backup_target five_world (Some "bk") p ≠ Some q) →
          files w' !! q = files five_world !! q).
Proof.
  apply delete_groups_all_succeed.
  - by_compute.
  - intros p Hp. cbn in Hp.
    repeat (apply elem_of_cons in Hp as [->|Hp]); [..|inversion Hp];
      (split; [by_compute|]; split; [reflexivity|]);
      intros dst Ht; vm_compute in Ht; injection Ht as <-;
      (split; [by_compute|reflexivity]).
  - intros p1 p2 dst Hp1 Hp2 Ht1 Ht2. cbn in Hp1, Hp2.
    repeat (apply elem_of_cons in Hp1 as [->|Hp1]); [..|inversion Hp1];
      (repeat (apply elem_of_cons in Hp2 as [->|Hp2]); [..|inversion Hp2]);
      vm_compute in Ht1, Ht2; congruence.
Defined.

Lemma delete_stage_keeps env delete backup_dir group_info w r w2 :
  delete_stage env delete backup_dir group_info w = (r, w2) →
  ∀ p, p ∈ dom (files w) → p ∉ paths_of group_info → p ∈ dom (files w2).
Proof.
  unfold delete_stage. destruct delete; [|by intros [= <- <-]].
  unfold bind.
  assert (∀ w1, files w1 = files w →
            delete_groups env backup_dir group_info w1 = (r, w2) →
            ∀ p, p ∈ dom (files w) → p ∉ paths_of group_info → p ∈ dom (files w2))
    as Hloop.
  { intros w1 Hw1 Hrun p Hp Hnot. rewrite delete_groups_flat in Hrun.
    destruct (delete_loop_total env backup_dir (paths_of group_info) 0 w1)
      as (cnt' & w' & Hrun' & _).
    rewrite Hrun in Hrun'. injection Hrun' as -> ->.
    apply (delete_loop_keeps env backup_dir (paths_of group_info) 0 w1 cnt' w');
      [done| |done]. by rewrite Hw1. }
  destruct (truthy backup_dir) as [dir|].
  - unfold makedirs. destruct (bool_decide _); [by intros [= <- <-]|].
    destruct (mkdir_fault _ _); [by intros [= <- <-]|]. by apply Hloop.
  - unfold ret. by apply Hloop.
Qed.

Lemma save_stage_frame env rw save_results result w r w' :
  save_stage env rw save_results result w = (r, w') →
  only_writes (report_paths env ".") w w'.
Proof.
  unfold save_stage. destruct save_results.
  - apply save_results_frame.
  - intros [= <- <-]. apply only_writes_refl.
Qed.

(** X12: a call that ends with a status other than [success] (no images,
    no duplicates) has changed nothing: no file is removed and, even with
    [save_results], no report is written. *)
Theorem process_duplicates_early_return `{SetIter} env rw self image_dir delete
    backup_dir save_results w r w' :
  process_duplicates env rw self image_dir delete backup_dir save_results w
    = (Return r, w') →
  status r ≠ "success" → w' = w.
Proof.
  intros Hrun%process_duplicates_outcome Hstatus.
  inversion Hrun; subst; done.
Qed.

(** The simple pair with a hasher that finds no duplicate: the run ends
    with [no_duplicates] and the world is as before. *)
Lemma process_duplicates_early_return_witness :
  let run := @process_duplicates elements_iter (example_env no_faults [])
               example_writer example_remover "d" true (Some "bk") true pair_world in
  run.1 = Return (NoDuplicates 2) ∧ run.2 = pair_world.
Proof.
  cbv zeta.
  destruct (@process_duplicates elements_iter (example_env no_faults [])
              example_writer example_remover "d" true (Some "bk") true pair_world)
    as [[r|e] w'] eqn:Hrun; [|vm_compute in Hrun; discriminate Hrun].
  cbn [fst snd].
  assert (r = NoDuplicates 2) as Hr.
  { pose proof Hrun as Hc. vm_compute in Hc. by injection Hc as <- _. }
  split; [by rewrite Hr|].
  apply (process_duplicates_early_return _ _ _ _ _ _ _ _ _ _ Hrun).
  rewrite Hr. discriminate.
Defined.

(** X13: with a method other than [cnn] and a threshold below 0 or above
    64, [process_duplicates] changes nothing, whatever [delete] and
    [backup_dir] say: it returns [no_images] or raises. *)
Theorem process_duplicates_rejects_threshold `{SetIter} env rw self image_dir
    delete backup_dir save_results w r w' :
  method_name self ≠ "cnn" → threshold self < 0 ∨ 64 < threshold self →
  process_duplicates env rw self image_dir delete backup_dir save_results w
    = (r, w') →
  w' = w ∧ (r = Return NoImages ∨ ∃ e, r = Raise e).
Proof.
  intros Hcnn Hout Hrun%process_duplicates_outcome.
  assert (∀ dups, find_duplicates env self image_dir w ≠ (Return dups, w)) as Hraise.
  { intros dups Hdup.
    destruct (find_duplicates_spec env self image_dir w) as (_ & Hencode & Hok).
    destruct (encode_images (hasher_of env (hasher self)) w image_dir)
      as [encodings|e] eqn:Henc.
    - destruct (Hok encodings eq_refl) as [_ Hcheck].
      destruct (Hcheck Hcnn) as [Hbad _]. rewrite Hdup in Hbad. by specialize (Hbad Hout).
    - specialize (Hencode e eq_refl). by rewrite Hdup in Hencode. }
  inversion Hrun; subst; eauto; by edestruct Hraise.
Qed.

(** The simple pair with the threshold 100: the run raises and the two
    files are still there. *)
Lemma process_duplicates_rejects_threshold_witness :
  let self := {| threshold := 100; method_name := "phash"; hasher := PHash |} in
  let run := @process_duplicates elements_iter pair_env example_writer self
               "d" true None true pair_world in
  run.2 = pair_world ∧ (run.1 = Return NoImages ∨ ∃ e, run.1 = Raise e).
Proof.
  cbv zeta.
  destruct (@process_duplicates elements_iter pair_env example_writer
              {| threshold := 100; method_name := "phash"; hasher := PHash |}
              "d" true None true pair_world) as [r w'] eqn:Hrun.
  cbn [fst snd].
  refine (process_duplicates_rejects_threshold _ _ _ _ _ _ _ _ _ _ _ _ Hrun).
  - discriminate.
  - right. cbn. lia.
Defined.

(** X14: a successful run, with or without deletion and backup, removes no
    file other than those on the to-remove lists of its result; in
    particular no representative is on a to-remove list, so every
    representative that existed still exists. *)
Theorem process_duplicates_removes_only_listed `{SetIter} env rw self image_dir
    delete backup_dir save_results w s w' :
  process_duplicates env rw self image_dir delete backup_dir save_results w
    = (Return (Success s), w') →
  (∀ p, p ∈ dom (files w) → p ∉ paths_of (groups s) → p ∈ dom (files w')) ∧
  (∀ d, d ∈ groups s →
        (representative d ∉ paths_of (groups s)) ∧
        (representative d ∈ dom (files w) → representative d ∈ dom (files w'))).
Proof.
  intros Hrun%process_duplicates_outcome.
  inversion Hrun as [| | | | | |all_images dups group_info td tr deleted_count
                       w2 w3 Hfind Hne Hdup Hgroups Hplan Hdel Hsave Hr];
    subst. cbn [groups].
  assert (∀ p, p ∈ dom (files w) → p ∉ paths_of group_info → p ∈ dom (files w'))
    as Hkeep.
  { intros p Hp Hnot. apply save_stage_frame in Hsave as (_ & _ & Hdom & _).
    apply Hdom. by apply (delete_stage_keeps _ _ _ _ _ _ _ Hdel). }
  split; [done|]. intros d Hd.
  destruct (plan_of_clusters env dups w group_info td tr Hplan) as (Hds & _).
  destruct (group_duplicates_spec dups) as (_ & Hpd & _).
  destruct (plan_paths_spec _ _ Hds Hpd) as (_ & _ & Hrep & _).
  destruct (Hrep d Hd) as [Hnot _]. split; [done|]. intros Hex. by apply Hkeep.
Qed.

(** The simple pair, deleting without backup: the representative
    [d/b.jpg] is not listed and is still there. *)
Lemma process_duplicates_removes_only_listed_witness :
  let run := @process_duplicates elements_iter pair_env example_writer
               example_remover "d" true None true pair_world in
  ∃ s, run.1 = Return (Success s) ∧
       ("d/b.jpg" ∉ paths_of (groups s)) ∧ "d/b.jpg" ∈ dom (files run.2).
Proof.
  cbv zeta.
  destruct (@process_duplicates elements_iter pair_env example_writer
              example_remover "d" true None true pair_world)
    as [[[| |s]|e] w'] eqn:Hrun;
    try (vm_compute in Hrun; discriminate Hrun).
  exists s. cbn [fst snd]. split; [done|].
  destruct (process_duplicates_removes_only_listed _ _ _ _ _ _ _ _ _ _ Hrun)
    as [Hkeep _].
  assert ("d/b.jpg" ∉ paths_of (groups s)) as Hnot.
  { clear Hkeep. vm_compute in Hrun. injection Hrun as <- _. by_compute. }
  split; [done|]. apply Hkeep; [by_compute|done].
Defined.

(** X15: the book-keeping of a successful result: one entry per cluster,
    numbered 1, 2, ... in order; every entry counts at least two images,
    one more than it lists for removal; no path is listed twice;
    [total_to_remove] is the number of listed paths, [deleted] lies between
    0 and that number, and [remaining_images] is [total_images] less
    [total_to_remove]. *)
Theorem process_duplicates_bookkeeping `{SetIter} env rw self image_dir delete
    backup_dir save_results w s w' :
  process_duplicates env rw self image_dir delete backup_dir save_results w
    = (Return (Success s), w') →
  len (groups s) = duplicate_groups s ∧
  (∀ k d, groups s !! k = Some d → group_id d = 1 + Z.of_nat k) ∧
  Forall (λ d, 2 ≤ total_count d ∧ total_count d = remove_count d + 1 ∧
               len (duplicates d) = remove_count d) (groups s) ∧
  NoDup (paths_of (groups s)) ∧
  total_to_remove s = len (paths_of (groups s)) ∧
  0 ≤ deleted s ≤ total_to_remove s ∧
  remaining_images s = total_images s - total_to_remove s.
Proof.
  intros Hrun%process_duplicates_outcome.
  inversion Hrun as [| | | | | |all_images dups group_info td tr deleted_count
                       w2 w3 Hfind Hne Hdup Hgroups Hplan Hdel Hsave Hr];
    subst. cbn.
  destruct (plan_of_clusters env dups w group_info td tr Hplan)
    as (Hds & Hids & -> & ->).
  destruct (group_duplicates_spec dups) as (Hall & Hpd & _).
  destruct (plan_paths_spec _ _ Hds Hpd) as (Hnd & _ & _ & Hlen).
  split; [unfold len; f_equal; symmetry; by eapply Forall2_length|].
  split; [done|]. split.
  { clear -Hds Hall. induction Hds as [|G d Gs ds Hd Hds IH]; [constructor|].
    apply Forall_cons in Hall as [(Hsz & _) Hall]. constructor; [|by apply IH].
    destruct Hd as (Hr & _ & _ & _ & Hl & -> & ->). unfold len, set_len. lia. }
  split; [done|]. split; [done|]. split; [|done].
  rewrite <-Hlen. unfold delete_stage in Hdel. destruct delete; [|unfold len; lia].
  unfold bind in Hdel.
  assert (∀ w1, delete_groups env backup_dir group_info w1 = (Return deleted_count, w2) →
                0 ≤ deleted_count ≤ len (paths_of group_info)) as Hloop.
  { intros w1 Hloop. rewrite delete_groups_flat in Hloop.
    destruct (delete_loop_total env backup_dir (paths_of group_info) 0 w1)
      as (cnt' & w'' & Hrun' & _ & Hcnt & _).
    rewrite Hloop in Hrun'. injection Hrun' as -> _. lia. }
  destruct (truthy backup_dir) as [dir|].
  - destruct (makedirs env dir w) as [[[]|e] w1]; [by apply (Hloop w1)|done].
  - by apply (Hloop w).
Qed.

(** The book-keeping on the simple pair, deleting without backup. *)
Lemma process_duplicates_bookkeeping_witness :
  let run := @process_duplicates elements_iter pair_env example_writer
               example_remover "d" true None true pair_world in
  ∃ s, run.1 = Return (Success s) ∧
       total_to_remove s = len (paths_of (groups s)) ∧
       0 ≤ deleted s ≤ total_to_remove s ∧
       remaining_images s = total_images s - total_to_remove s.
Proof.
  cbv zeta.
  destruct (@process_duplicates elements_iter pair_env example_writer
              example_remover "d" true None true pair_world)
    as [[[| |s]|e] w'] eqn:Hrun;
    try (vm_compute in Hrun; discriminate Hrun).
  exists s. cbn [fst snd]. split; [done|].
  destruct (process_duplicates_bookkeeping _ _ _ _ _ _ _ _ _ _ Hrun)
    as (_ & _ & _ & _ & Htr & Hdel & Hrem).
  exact (conj Htr (conj Hdel Hrem)).
Defined.

(** X16: a successful run with [delete=True] and no backup directory, in
    which every listed file exists and no removal is refused, removes all
    of them: [deleted] equals [total_to_remove], no failure is reported,
    and no listed path holds a file afterwards (a path that is also a
    report path apart). *)
Theorem process_duplicates_deletes_all `{SetIter} env rw self image_dir
    backup_dir save_results w s w' :
  process_duplicates env rw self image_dir true backup_dir save_results w
    = (Return (Success s), w') →
  truthy backup_dir = None →
  (∀ p, p ∈ paths_of (groups s) →
        p ∈ dom (files w) ∧ remove_fault (faults env) p = false) →
  deleted s = total_to_remove s ∧
  stdout w' = stdout w ∧
  ∀ p, p ∈ paths_of (groups s) → p ∉ report_paths env "." → p ∉ dom (files w').
Proof.
  intros Hrun%process_duplicates_outcome Hnb Hl.
  inversion Hrun as [| | | | | |all_images dups group_info td tr deleted_count
                       w2 w3 Hfind Hne Hdup Hgroups Hplan Hdel Hsave Hr];
    subst. cbn in *.
  destruct (plan_of_clusters env dups w group_info td tr Hplan)
    as (Hds & _ & -> & ->).
  destruct (group_duplicates_spec dups) as (_ & Hpd & _).
  destruct (plan_paths_spec _ _ Hds Hpd) as (Hnd & _ & _ & Hlen).
  unfold delete_stage, bind in Hdel. rewrite Hnb in Hdel. unfold ret in Hdel.
  assert (∀ p, p ∈ paths_of group_info →
            p ∈ dom (files w) ∧ remove_fault (faults env) p = false ∧
            ∀ dst, backup_target w backup_dir p = Some dst →
                   (dst ∉ paths_of group_info) ∧ copy_fault (faults env) p dst = false)
    as Hl'.
  { intros p Hp. destruct (Hl p Hp) as [? ?]. split; [done|]. split; [done|].
    intros dst Ht. unfold backup_target, backup_target_in in Ht. by rewrite Hnb in Ht. }
  rewrite delete_groups_flat in Hdel.
  destruct (delete_loop_all_succeed env backup_dir (paths_of group_info) 0 w Hnd Hl')
    as (w2' & Hrun' & Hout).
  rewrite Hdel in Hrun'. injection Hrun' as -> <-.
  apply save_stage_frame in Hsave as (_ & Hout' & _ & Hframe).
  split; [lia|]. split; [congruence|].
  intros p Hp Hnr. apply not_elem_of_dom. rewrite (Hframe p Hnr).
  apply not_elem_of_dom. destruct (Hl' p Hp) as (Hex & Hrf & Hdst).
  apply (delete_loop_removes env backup_dir (dirs w) (paths_of group_info)
           0 w (0 + len (paths_of group_info)) w2 p); try done.
  - intros dst Ht. by apply (Hdst dst).
  - intros q dst Hq Ht. by apply (Hl' q Hq).
Qed.

(** The simple pair, deleting without backup: the one listed file
    [d/a.jpg] is removed and counted. *)
Lemma process_duplicates_deletes_all_witness :
  let run := @process_duplicates elements_iter pair_env example_writer
               example_remover "d" true None true pair_world in
  ∃ s, run.1 = Return (Success s) ∧ paths_of (groups s) = ["d/a.jpg"] ∧
       deleted s = total_to_remove s ∧ "d/a.jpg" ∉ dom (files run.2).
Proof.
  cbv zeta.
  destruct (@process_duplicates elements_iter pair_env example_writer
              example_remover "d" true None true pair_world)
    as [[[| |s]|e] w'] eqn:Hrun;
    try (vm_compute in Hrun; discriminate Hrun).
  exists s. cbn [fst snd]. split; [done|].
  assert (paths_of (groups s) = ["d/a.jpg"]) as Hpaths.
  { pose proof Hrun as Hc. vm_compute in Hc. by injection Hc as <- _. }
  split; [done|].
  assert (∀ p, p ∈ paths_of (groups s) →
               p ∈ dom (files pair_world) ∧ remove_fault (faults pair_env) p = false)
    as Hlisted.
  { intros p Hp. rewrite Hpaths in Hp. apply list_elem_of_singleton in Hp as ->.
    split; [by_compute|reflexivity]. }
  destruct (process_duplicates_deletes_all _ _ _ _ _ _ _ _ _ Hrun eq_refl Hlisted)
    as (Hdel & _ & Hgone).
  split; [done|]. apply Hgone; [rewrite Hpaths; by_compute|by_compute].
Defined.

(* ===================================================================== *)
(** * Further properties: the reports and [main]                          *)
(* ===================================================================== *)

Lemma write_file_written env path content w w' :
  write_file env path content w = (Return tt, w') →
  write_fault (faults env) path = false ∧ (path ∉ dirs w) ∧
  files w' !! path = Some content.
Proof.
  unfold write_file. destruct (write_fault (faults env) path); [done|].
  case_bool_decide as Hdir; [done|]. cbn [orb]. intros [= <-].
  unfold set_files. cbn. by rewrite lookup_insert_eq.
Qed.

(** When [save_results_to_file] returns, the JSON report and the summary
    have been written, and so has the CSV list if the result has groups;
    none of them was refused or is a directory. *)
Lemma save_results_written env rw result output_dir w w' :
  save_results_to_file env rw result output_dir w = (Return tt, w') →
  ∀ k p, report_paths env output_dir !! k = Some p →
         k ≠ 1%nat ∨ has_groups result = true →
         p ∈ dom (files w') ∧ write_fault (faults env) p = false ∧ p ∉ dirs w.
Proof.
  unfold save_results_to_file, bind, report_paths.
  set (json_path := path_join _ ("duplicate_analysis_" +:+ _)).
  set (csv_path := path_join _ ("duplicates_to_remove_" +:+ _)).
  set (summary_path := path_join _ ("duplicate_summary_" +:+ _)).
  set (touched := [json_path; csv_path; summary_path]).
  destruct (write_file env json_path _ w) as [[[]|e1] w1] eqn:Hjson; [|done].
  run_step as [[[]|e2] w2] eqn:Hcsv; [|done]. intros Hsum.
  assert (only_writes touched w w1) as H1
    by (apply (write_file_frame _ _ _ touched) in Hjson; [done|set_solver]).
  assert (only_writes touched w1 w2) as H2.
  { destruct (has_groups result).
    - apply (write_file_frame _ _ _ touched) in Hcsv; [done|set_solver].
    - unfold ret in Hcsv. simplify_eq. apply only_writes_refl. }
  assert (only_writes touched w2 w') as H3
    by (apply (write_file_frame _ _ _ touched) in Hsum; [done|set_solver]).
  destruct H1 as (Hd1 & _ & _ & _), H2 as (Hd2 & _ & Hk2 & _), H3 as (_ & _ & Hk3 & _).
  apply write_file_written in Hjson as (Hf1 & Hn1 & Hc1).
  apply write_file_written in Hsum as (Hf3 & Hn3 & Hc3).
  intros [|[|[|k]]] p Hp Hk; cbn in Hp; simplify_eq.
  - split; [|done]. apply Hk3, Hk2. by apply elem_of_dom.
  - destruct Hk as [|Hg]; [done|]. rewrite Hg in Hcsv.
    apply write_file_written in Hcsv as (Hf2 & Hn2 & Hc2).
    split; [|split; [done|congruence]]. apply Hk3. by apply elem_of_dom.
  - split; [|split; [done|congruence]]. by apply elem_of_dom.
Qed.

(** X17: a successful run with [save_results] leaves all three reports
    (JSON, CSV and summary) in the working directory: a successful result
    always has groups, so the CSV list is written too. None of the three
    writes was refused. *)
Theorem process_duplicates_reports_written `{SetIter} env rw self image_dir
    delete backup_dir w s w' p :
  process_duplicates env rw self image_dir delete backup_dir true w
    = (Return (Success s), w') →
  p ∈ report_paths env "." →
  p ∈ dom (files w') ∧ write_fault (faults env) p = false.
Proof.
  intros Hrun%process_duplicates_outcome Hp.
  inversion Hrun as [| | | | | |all_images dups group_info td tr deleted_count
                       w2 w3 Hfind Hne Hdup Hgroups Hplan Hdel Hsave Hr];
    subst.
  destruct (plan_of_clusters env dups w group_info td tr Hplan) as (Hds & _).
  assert (group_info ≠ []) as Hgi.
  { intros ->. apply Forall2_nil_inv_r in Hds. done. }
  apply list_elem_of_lookup_1 in Hp as [k Hk].
  unfold save_stage in Hsave.
  destruct (save_results_written _ _ _ _ _ _ Hsave k p Hk) as (? & ? & _); [|done].
  right. unfold success_result, has_groups. cbn. by destruct group_info.
Qed.

(** A dry run on the simple pair leaves the CSV list of the files to
    remove. *)
Lemma process_duplicates_reports_written_witness :
  let run := @process_duplicates elements_iter pair_env example_writer
               example_remover "d" false None true pair_world in
  ∃ s, run.1 = Return (Success s) ∧
       "./duplicates_to_remove_20240101_000000.csv" ∈ dom (files run.2).
Proof.
  cbv zeta.
  destruct (@process_duplicates elements_iter pair_env example_writer
              example_remover "d" false None true pair_world)
    as [[[| |s]|e] w'] eqn:Hrun;
    try (vm_compute in Hrun; discriminate Hrun).
  exists s. cbn [fst snd]. split; [done|].
  apply (process_duplicates_reports_written _ _ _ _ _ _ _ _ _ _ Hrun). by_compute.
Defined.

Lemma lower_is_y (s : string) : lower s = "y" → s = "y" ∨ s = "Y".
Proof.
  destruct s as [|c [|c' s']]; cbn [lower]; [done| |done].
  intros [= Hc]. revert Hc.
  destruct c as [[] [] [] [] [] [] [] []]; vm_compute; intros Hc;
    first [discriminate Hc | by left | by right].
Qed.

(** What a call of [process_duplicates] without [delete] can change,
    however it ends. *)
Lemma process_duplicates_no_delete_frame `{SetIter} env rw self image_dir
    backup_dir save_results w r w' :
  process_duplicates env rw self image_dir false backup_dir save_results w = (r, w') →
  only_writes (report_paths env ".") w w'.
Proof.
  intros Hrun%process_duplicates_outcome.
  inversion Hrun as [| | | |? ? ? ? ? ? ? ? ? ? ? ? Hdel
                     |? ? ? ? ? ? ? ? ? ? ? ? ? ? Hdel Hsave
                     |? ? ? ? ? ? ? ? ? ? ? ? ? Hdel Hsave]; subst;
    try apply only_writes_refl.
  - done.
  - injection Hdel as _ <-. by apply save_stage_frame in Hsave.
  - injection Hdel as _ <-. by apply save_stage_frame in Hsave.
Qed.

(** X18: no exception escapes [main]: a failing hasher, a threshold out
    of range, an unknown method and a report that cannot be written all end
    in a normal return. *)
Theorem main_never_raises `{SetIter} env rw args confirm w :
  (main env rw args confirm w).1 = Return tt.
Proof.
  unfold main. destruct (negb (path_exists _ _)); [done|].
  destruct (_ && _ && _)%bool; [done|]. unfold try_except.
  destruct (init _ _) as [remover|e]; [|done]. unfold bind.
  by destruct (process_duplicates _ _ _ _ _ _ _ _) as [[r|e] w'].
Qed.

(** X19: [main] changes nothing when the directory does not exist, and
    nothing when deletion without a backup directory is asked for and the
    answer to the confirmation is anything but [y] or [Y]. *)
Theorem main_cancelled `{SetIter} env rw args confirm w :
  path_exists w (args_image_dir args) = false ∨
  (args_delete args = true ∧ truthy (args_backup args) = None ∧
   confirm ≠ "y" ∧ confirm ≠ "Y") →
  main env rw args confirm w = (Return tt, w).
Proof.
  unfold main. intros [->|(-> & -> & Hy & HY)]; [done|].
  destruct (negb (path_exists _ _)); [done|].
  destruct (String.eqb_spec (lower confirm) "y") as [Hl|Hl]; [|done].
  by apply lower_is_y in Hl as [?|?].
Qed.

Lemma main_cancelled_witness :
  @main elements_iter pair_env example_writer
    {| args_image_dir := "d"; args_delete := true; args_method := "phash";
       args_threshold := 3; args_backup := None |} "yes" pair_world
  = (Return tt, pair_world).
Proof.
  apply main_cancelled. right. cbn. repeat split; discriminate.
Defined.

(** X20: without [--delete], [main] removes and overwrites no image and
    creates no directory, whatever the method, the threshold, the backup
    argument and the errors on the way: at most the three reports of the
    working directory are written. *)
Theorem main_without_delete `{SetIter} env rw args confirm w :
  args_delete args = false →
  only_writes (report_paths env ".") w (main env rw args confirm w).2.
Proof.
  intros Hd. unfold main. rewrite Hd. cbn [andb].
  destruct (negb (path_exists _ _)); [apply only_writes_refl|].
  unfold try_except. destruct (init _ _) as [remover|e]; [|apply only_writes_refl].
  unfold bind.
  destruct (process_duplicates _ _ _ _ _ _ _ _) as [[r|e] w'] eqn:Hrun;
    by apply process_duplicates_no_delete_frame in Hrun.
Qed.

Lemma main_without_delete_witness :
  only_writes (report_paths pair_env ".") pair_world
    (@main elements_iter pair_env example_writer
       {| args_image_dir := "d"; args_delete := false; args_method := "phash";
          args_threshold := 3; args_backup := Some "bk" |} "" pair_world).2.
Proof. by apply main_without_delete. Defined.
